(** * dessser runtime: Bytes, Set variants and the 128-bit decimal codec

    A shallow embedding of [src/dessser/runtime.h], [Bytes.h], [Set.h],
    [SimpleSet.h] and [SlidingWindow.h].

    - [std::string] is a list of characters ([cstring]);
    - [uint64_t], [uint128_t], [int64_t], [int128_t], [size_t] and
      [uint32_t] are integers of [Z], with each conversion and each
      wrap-around written where the C++ code has it;
    - a call that may fail returns an [outcome]: a value, an assertion
      failure (the process aborts), a C++ exception thrown by the standard
      library, or undefined behaviour (signed overflow, a read out of
      bounds, [back()] of an empty list). *)

From Stdlib Require Import String Ascii ZArith List Bool Lia Arith.
Import ListNotations.
Local Open Scope Z_scope.

Set Implicit Arguments.

(** ** Outcomes *)

Inductive exn : Type :=
| invalid_argument
| out_of_range.

Inductive outcome (A : Type) : Type :=
| Ok (a : A)
| AssertFail           (* [assert] failed: the process aborts *)
| Throw (e : exn)      (* exception of the standard library *)
| Undefined            (* undefined behaviour *)
| OutOfFuel.           (* the recursion bound of the model was reached *)

Arguments Ok {A} a.
Arguments AssertFail {A}.
Arguments Throw {A} e.
Arguments Undefined {A}.
Arguments OutOfFuel {A}.

Definition bind {A B : Type} (m : outcome A) (k : A -> outcome B) : outcome B :=
  match m with
  | Ok a => k a
  | AssertFail => AssertFail
  | Throw e => Throw e
  | Undefined => Undefined
  | OutOfFuel => OutOfFuel
  end.

Notation "x <- m ;; k" := (bind m (fun x => k))
  (at level 61, m at next level, right associativity).

(** ** Machine integers *)

(** Modelled from the spec: [dessser/typedefs.h], which declares
    [uint128_t] and [int128_t], is not among the sources; the spec gives
    their ranges, [0, 2^128-1] and [-2^127, 2^127-1]. *)
Definition UINT128_MAX : Z := 2 ^ 128 - 1.
Definition INT128_MAX : Z := 2 ^ 127 - 1.
Definition INT128_MIN : Z := - 2 ^ 127.

Definition UINT64_MAX : Z := 18446744073709551615.
Definition INT64_MAX : Z := 9223372036854775807.
Definition INT64_MIN : Z := -9223372036854775808.

(** Conversions to an unsigned type reduce modulo [2^w]; conversions to a
    signed type keep the low [w] bits in two's complement. *)
Definition to_u64 (z : Z) : Z := z mod 2 ^ 64.
Definition to_u128 (z : Z) : Z := z mod 2 ^ 128.
Definition to_i64 (z : Z) : Z := (z + 2 ^ 63) mod 2 ^ 64 - 2 ^ 63.
Definition to_size_t (z : Z) : Z := z mod 2 ^ 64.
Definition to_u32 (z : Z) : Z := z mod 2 ^ 32.

(** Arithmetic of [int128_t]: a result out of range is undefined. *)
Definition i128 (z : Z) : outcome Z :=
  if (INT128_MIN <=? z) && (z <=? INT128_MAX) then Ok z else Undefined.

(** ** Characters and strings *)

Definition cstring : Type := list ascii.

Definition lit (s : String.string) : cstring := list_ascii_of_string s.

Definition code (c : ascii) : Z := Z.of_N (N_of_ascii c).

(** [std::string::substr(pos, n)], for [pos <= length]. *)
Definition substr (s : cstring) (pos n : nat) : cstring :=
  firstn n (skipn pos s).

(** [isspace] of the C locale. *)
Definition is_space (c : ascii) : bool :=
  (code c =? 32) || ((9 <=? code c) && (code c <=? 13)).

(** runtime.h, lines 93-94. *)
Definition is_sign (x : ascii) : bool :=
  Ascii.eqb x "-" || Ascii.eqb x "+".
Definition is_digit (x : ascii) : bool :=
  (code "0" <=? code x) && (code x <=? code "9").

Definition digit_val (c : ascii) : Z := code c - code "0".
Definition digit_of (d : Z) : ascii := ascii_of_N (Z.to_N (code "0" + d)).

(** Value of a run of decimal digits, most significant first. *)
Definition value (ds : cstring) : Z :=
  fold_left (fun acc c => acc * 10 + digit_val c) ds 0.

Fixpoint take_digits (s : cstring) : cstring :=
  match s with
  | c :: t => if is_digit c then c :: take_digits t else []
  | [] => []
  end.

Fixpoint skip_spaces (s : cstring) : cstring :=
  match s with
  | c :: t => if is_space c then skip_spaces t else s
  | [] => []
  end.

(** ** The standard library functions the codec calls *)

(** [std::to_string] of an unsigned 64-bit value: its decimal digits by
    repeated division; twenty digits are enough below [2^64]. *)
Fixpoint digits_rec (fuel : nat) (n : Z) (acc : cstring) : cstring :=
  match fuel with
  | O => acc
  | S f =>
      let acc' := digit_of (n mod 10) :: acc in
      if n / 10 =? 0 then acc' else digits_rec f (n / 10) acc'
  end.

Definition to_string_u64 (n : Z) : cstring := digits_rec 20 n [].

(** [std::to_string] of a signed 64-bit value. *)
Definition to_string_i64 (n : Z) : cstring :=
  if n <? 0 then "-"%char :: to_string_u64 (- n) else to_string_u64 n.

(** The part of [strtoull]/[strtoll] shared by [std::stoull] and
    [std::stoll] in base 10: leading white space is skipped, one sign is
    accepted, then the longest run of digits is read. *)
Definition scan_number (s : cstring) : bool * cstring :=
  match skip_spaces s with
  | c :: t =>
      if Ascii.eqb c "-" then (true, take_digits t)
      else if Ascii.eqb c "+" then (false, take_digits t)
      else (false, take_digits (c :: t))
  | [] => (false, [])
  end.

(** [std::stoull]: no digit is [invalid_argument], a magnitude above
    [ULLONG_MAX] is [out_of_range], a minus sign negates modulo [2^64]. *)
Definition stoull (s : cstring) : outcome Z :=
  let '(neg, ds) := scan_number s in
  match ds with
  | [] => Throw invalid_argument
  | _ =>
      if value ds >? UINT64_MAX then Throw out_of_range
      else Ok (if neg then to_u64 (- value ds) else value ds)
  end.

(** [std::stoll]. *)
Definition stoll (s : cstring) : outcome Z :=
  let '(neg, ds) := scan_number s in
  match ds with
  | [] => Throw invalid_argument
  | _ =>
      let v := if neg then - value ds else value ds in
      if (INT64_MIN <=? v) && (v <=? INT64_MAX) then Ok v
      else Throw out_of_range
  end.

(** ** runtime.h: the codec *)

Definition P10_UINT64 : Z := 10000000000000000000.
Definition E10_UINT64 : Z := 19.
Definition P10_INT64 : Z := 1000000000000000000.
Definition E10_INT64 : Z := 18.

(** [std::string(n, c)]. *)
Definition fill (n : Z) (c : ascii) : cstring := repeat c (Z.to_nat n).

Definition len (s : cstring) : Z := Z.of_nat (length s).

(** runtime.h, lines 52-63.  A value of [uint128_t] has at most 39 digits,
    so the recursion is at most three deep. *)
Fixpoint string_of_u128_rec (fuel : nat) (u128 : Z) : outcome cstring :=
  match fuel with
  | O => OutOfFuel
  | S f =>
      if u128 <=? UINT64_MAX then
        Ok (to_string_u64 (to_u64 u128))
      else
        let hi := u128 / P10_UINT64 in
        let lo := to_u64 (u128 mod P10_UINT64) in
        let ss := to_string_u64 lo in
        let num_zeros := to_size_t (E10_UINT64 - len ss) in
        h <- string_of_u128_rec f hi ;;
        Ok (h ++ fill num_zeros "0" ++ ss)
  end.

Definition string_of_u128 (u128 : Z) : outcome cstring :=
  string_of_u128_rec 3 u128.

(** runtime.h, lines 65-74.  Each recursive call is on a shorter string,
    so the length of the string bounds the depth. *)
Fixpoint u128_of_string_rec (fuel : nat) (s : cstring) : outcome Z :=
  match fuel with
  | O => if len s =? 0 then AssertFail else OutOfFuel
  | S f =>
      if negb (len s >? 0) then AssertFail
      else if len s <=? E10_UINT64 then stoull s
      else
        let hi_len := len s - E10_UINT64 in
        hi <- u128_of_string_rec f (substr s 0 (Z.to_nat hi_len)) ;;
        lo <- u128_of_string_rec f
                (substr s (Z.to_nat hi_len) (Z.to_nat E10_UINT64)) ;;
        Ok (to_u128 (hi * P10_UINT64 + lo))
  end.

Definition u128_of_string (s : cstring) : outcome Z :=
  u128_of_string_rec (length s) s.

(** runtime.h, lines 80-91.  Division and remainder of C++ truncate
    towards zero: [Z.quot] and [Z.rem]. *)
Fixpoint string_of_i128_rec (fuel : nat) (i128v : Z) : outcome cstring :=
  match fuel with
  | O => OutOfFuel
  | S f =>
      if (INT64_MIN <=? i128v) && (i128v <=? INT64_MAX) then
        Ok (to_string_i64 (to_i64 i128v))
      else
        let hi := Z.quot i128v P10_INT64 in
        let lo := to_i64 (Z.rem i128v P10_INT64) in
        let ss := to_string_i64 (Z.abs lo) in
        let num_zeros := to_size_t (E10_INT64 - len ss) in
        h <- string_of_i128_rec f hi ;;
        Ok (h ++ fill num_zeros "0" ++ ss)
  end.

Definition string_of_i128 (i128v : Z) : outcome cstring :=
  string_of_i128_rec 3 i128v.

(** runtime.h, lines 96-108. *)
Fixpoint i128_of_string_rec (fuel : nat) (s : cstring) : outcome Z :=
  match fuel with
  | O => if len s =? 0 then AssertFail else OutOfFuel
  | S f =>
      if negb (len s >? 0) then AssertFail
      else
        let max_len :=
          E10_INT64 + (if is_sign (nth 0 s "000"%char) then 1 else 0) in
        if len s <=? max_len then stoll s
        else
          let hi_len := len s - E10_INT64 in
          hi <- i128_of_string_rec f (substr s 0 (Z.to_nat hi_len)) ;;
          lo <- i128_of_string_rec f
                  (substr s (Z.to_nat hi_len) (Z.to_nat E10_INT64)) ;;
          if hi >=? 0 then
            m <- i128 (hi * P10_INT64) ;; i128 (m + lo)
          else
            m <- i128 (hi * P10_INT64) ;; i128 (m - lo)
  end.

Definition i128_of_string (s : cstring) : outcome Z :=
  i128_of_string_rec (length s) s.

(** The loop of lines 114 and 125: [count] advances while it is inside the
    range and on a digit.  [rest] is the range from [start + count]. *)
Fixpoint scan_digits (rest : cstring) (count : nat) : nat :=
  match rest with
  | c :: t => if is_digit c then scan_digits t (S count) else count
  | [] => count
  end.

(** runtime.h, lines 110-119.  The range [start, stop) is the list of its
    characters; the result is the returned count with the value stored in
    [*res]. *)
Definition i128_from_chars (range : cstring) : outcome (nat * Z) :=
  match range with
  | [] => AssertFail
  | c0 :: _ =>
      let count := if is_sign c0 then 1%nat else 0%nat in
      let count := scan_digits (skipn count range) count in
      if negb (0 <? count)%nat then AssertFail
      else
        let s := firstn count range in
        res <- i128_of_string s ;;
        Ok (count, res)
  end.

(** runtime.h, lines 121-130.  The loop starts again from [count = 0]. *)
Definition u128_from_chars (range : cstring) : outcome (nat * Z) :=
  match range with
  | [] => AssertFail
  | c0 :: _ =>
      let count := if is_sign c0 then 1%nat else 0%nat in
      let count := 0%nat in
      let count := scan_digits (skipn count range) count in
      if negb (0 <? count)%nat then AssertFail
      else
        let s := firstn count range in
        res <- i128_of_string s ;;
        Ok (count, to_u128 res)
  end.

(** ** Bytes.h *)

Module BytesM.

(** Modelled from the spec: [dessser/typedefs.h], which declares [Byte],
    is not among the sources; the spec speaks of raw bytes, so [Byte] is an
    8-bit byte.  The block behind [std::shared_ptr<Byte[]>] is the list of
    its bytes: views are never written through, so sharing is not
    observable.  [size_t] values that only index the block are [nat]. *)
Definition Byte : Type := Byte.byte.

Record Bytes : Type := mkBytes
  { buffer : list Byte;
    size : nat;
    offset : nat }.

Definition capacity (b : Bytes) : nat := length (buffer b).

(** Bytes.h, lines 16-20: the three fields are stored as given; the
    result is an [outcome] to record that no path of the constructor
    fails. *)
Definition view (buffer_ : list Byte) (size_ offset_ : nat) : outcome Bytes :=
  Ok (mkBytes buffer_ size_ offset_).

(** Bytes.h, lines 22-28: [new Byte[size]] then [memcpy]. *)
Definition of_string (s : cstring) : Bytes :=
  mkBytes (map byte_of_ascii s) (length s) 0.

(** [buffer.get() + offset]: a pointer may go at most one past the end
    of its block. *)
Definition ptr_add (mem : list Byte) (p : nat) : outcome nat :=
  if (p <=? length mem)%nat then Ok p else Undefined.

(** Reading [n] bytes from position [p] of a block. *)
Fixpoint read_bytes (mem : list Byte) (p n : nat) : outcome (list Byte) :=
  match n with
  | O => Ok []
  | S n' =>
      match nth_error mem p with
      | Some b => t <- read_bytes mem (S p) n' ;; Ok (b :: t)
      | None => Undefined
      end
  end.

(** Bytes.h, lines 32-35. *)
Definition toString (b : Bytes) : outcome cstring :=
  p <- ptr_add (buffer b) (offset b) ;;
  bs <- read_bytes (buffer b) p (size b) ;;
  Ok (map ascii_of_byte bs).

(** The slice [offset, offset + size) of the block, as characters. *)
Definition slice (b : Bytes) : cstring :=
  map ascii_of_byte (firstn (size b) (skipn (offset b) (buffer b))).

End BytesM.

(** ** Set.h, SimpleSet.h, SlidingWindow.h *)

(** [std::list<T>::back()]: undefined on an empty list. *)
Fixpoint back {T : Type} (l : list T) : outcome T :=
  match l with
  | [] => Undefined
  | [x] => Ok x
  | _ :: t => back t
  end.

(** Set.h: the abstract interface.  [size] returns a [uint32_t]. *)
Class SetOps (T S : Type) : Type :=
  { empty : S;
    insert : T -> S -> S;
    lastUpdate : S -> outcome (T * list T);
    size : S -> Z }.

Module SimpleSet.
Section Impl.
Variable T : Type.

(** From oldest to youngest. *)
Record t : Type := mk { l : list T }.

Definition create : t := mk [].
Definition copy (other : t) : t := mk (l other).

Definition insert (x : T) (s : t) : t := mk (l s ++ [x]).

Definition lastUpdate (s : t) : outcome (T * list T) :=
  x <- back (l s) ;; Ok (x, []).

Definition size (s : t) : Z := to_u32 (Z.of_nat (length (l s))).

(** [iter]: the callback threads the state it acts on. *)
Definition iter {St : Type} (f : T -> St -> St) (s : t) (st : St) : St :=
  fold_left (fun acc x => f x acc) (l s) st.
End Impl.
End SimpleSet.

Module SlidingWindow.
Section Impl.
Variable T : Type.

(** From oldest to youngest. *)
Record t : Type := mk { l : list T }.

Definition create : t := mk [].
Definition copy (other : t) : t := mk (l other).

Definition insert (x : T) (s : t) : t := mk (l s ++ [x]).

Definition lastUpdate (s : t) : outcome (T * list T) :=
  x <- back (l s) ;; Ok (x, []).

Definition size (s : t) : Z := to_u32 (Z.of_nat (length (l s))).

(** [begin()] to [end()]: the elements in order. *)
Definition range (s : t) : list T := l s.
End Impl.
End SlidingWindow.

#[export] Instance SimpleSet_ops (T : Type) : SetOps T (SimpleSet.t T) :=
  { empty := SimpleSet.create T;
    insert := @SimpleSet.insert T;
    lastUpdate := @SimpleSet.lastUpdate T;
    size := @SimpleSet.size T }.

#[export] Instance SlidingWindow_ops (T : Type) : SetOps T (SlidingWindow.t T) :=
  { empty := SlidingWindow.create T;
    insert := @SlidingWindow.insert T;
    lastUpdate := @SlidingWindow.lastUpdate T;
    size := @SlidingWindow.size T }.

(** A client of the interface: calls and what they return. *)
Inductive call (T : Type) : Type :=
| CInsert (x : T)
| CLastUpdate
| CSize.

Inductive reply (T : Type) : Type :=
| RDone
| RLast (r : outcome (T * list T))
| RSize (n : Z).

Arguments CLastUpdate {T}.
Arguments CSize {T}.
Arguments RDone {T}.
Arguments RSize {T} n.

Section Client.
Context {T S : Type} `{SetOps T S}.

Definition step (c : call T) (s : S) : S * reply T :=
  match c with
  | CInsert x => (insert x s, RDone)
  | CLastUpdate => (s, RLast (lastUpdate s))
  | CSize => (s, RSize (size s))
  end.

Fixpoint run (cs : list (call T)) (s : S) : list (reply T) :=
  match cs with
  | [] => []
  | c :: cs' => let '(s', r) := step c s in r :: run cs' s'
  end.

(** Inserting [xs] in order. *)
Definition inserts (xs : list T) (s : S) : S :=
  fold_left (fun acc x => insert x acc) xs s.
End Client.

(** ** Vocabulary of the statements *)

(** A run of decimal digits. *)
Definition digits (ds : cstring) : Prop := Forall (fun c => is_digit c = true) ds.

(** The run does not start with the digit zero. *)
Definition leading (ds : cstring) : Prop :=
  match ds with
  | c :: _ => 0 < digit_val c
  | [] => False
  end.

(** [ds] is the decimal writing of [n]: digits only, at least one, no
    leading zero unless [n] is zero. *)
Record decimal (n : Z) (ds : cstring) : Prop := mkDecimal
  { dec_digits : digits ds;
    dec_value : value ds = n;
    dec_nonempty : ds <> [];
    dec_leading : 0 < n -> leading ds }.

(** The low chunk as the formatters write it: [width] characters, zeros
    first. *)
Definition padded (width : Z) (ss : cstring) : cstring :=
  fill (to_size_t (width - len ss)) "0" ++ ss.

(** The sign a formatter writes for [i], and the writing of a signed
    value. *)
Definition sign_of (i : Z) : cstring := if i <? 0 then ["-"%char] else [].

Definition sdecimal (i : Z) (s : cstring) : Prop :=
  exists ds, s = sign_of i ++ ds /\ decimal (Z.abs i) ds.

(** The optional sign in front of a run of digits, and the value it gives
    to the run. *)
Inductive sign : Type := NoSign | Plus | Minus.

Definition sign_chars (sg : sign) : cstring :=
  match sg with
  | NoSign => []
  | Plus => ["+"%char]
  | Minus => ["-"%char]
  end.

Definition signed (sg : sign) (v : Z) : Z :=
  match sg with
  | Minus => - v
  | _ => v
  end.

(** The chunk [i128_of_string] parses first: what is left of a run when
    groups of 18 digits are taken from its end. *)
Definition top_chunk (ds : cstring) : cstring :=
  firstn ((length ds - 1) mod 18 + 1) ds.

(** What [i128_of_string] makes of a sign and a run of digits: a minus
    sign counts only when the chunk parsed first is not zero. *)
Definition parsed (sg : sign) (ds : cstring) : Z :=
  match sg with
  | Minus => if value (top_chunk ds) =? 0 then value ds else - value ds
  | _ => value ds
  end.

(** The range continues with something that is not a digit, or ends. *)
Definition stops (rest : cstring) : Prop :=
  match rest with
  | c :: _ => is_digit c = false
  | [] => True
  end.

(** The outcome is not the recursion bound of the model. *)
Definition in_fuel {A : Type} (m : outcome A) : Prop := m <> OutOfFuel.

(** * Properties *)

(** ** Characters *)

Lemma code_range (c : ascii) : 0 <= code c < 256.
Proof.
  unfold code. pose proof (N_ascii_bounded c). lia.
Qed.

Lemma code_inj (c d : ascii) : code c = code d -> c = d.
Proof.
  unfold code. intros E.
  rewrite <- (ascii_N_embedding c), <- (ascii_N_embedding d).
  f_equal. lia.
Qed.

Lemma is_digit_code (c : ascii) : is_digit c = true <-> 48 <= code c <= 57.
Proof.
  unfold is_digit. change (code "0") with 48. change (code "9") with 57.
  rewrite andb_true_iff, !Z.leb_le. tauto.
Qed.

Lemma digit_val_range (c : ascii) : is_digit c = true -> 0 <= digit_val c < 10.
Proof.
  rewrite is_digit_code. unfold digit_val. change (code "0") with 48. lia.
Qed.

Lemma code_digit_of (d : Z) : 0 <= d < 10 -> code (digit_of d) = 48 + d.
Proof.
  intros Hd. unfold digit_of, code. change (Z.of_N (N_of_ascii "0")) with 48.
  rewrite N_ascii_embedding by lia. lia.
Qed.

Lemma is_digit_digit_of (d : Z) : 0 <= d < 10 -> is_digit (digit_of d) = true.
Proof.
  intros Hd. apply is_digit_code. rewrite code_digit_of; lia.
Qed.

Lemma digit_val_digit_of (d : Z) : 0 <= d < 10 -> digit_val (digit_of d) = d.
Proof.
  intros Hd. unfold digit_val. rewrite code_digit_of by lia.
  change (code "0") with 48. lia.
Qed.

Lemma digit_val_inj (c d : ascii) : digit_val c = digit_val d -> c = d.
Proof.
  unfold digit_val. intros E. apply code_inj. lia.
Qed.

Lemma digit_not_char (c d : ascii) :
  is_digit c = true -> is_digit d = false -> Ascii.eqb c d = false.
Proof.
  intros Hc Hd. apply Ascii.eqb_neq. intros ->. congruence.
Qed.

Lemma digit_not_sign (c : ascii) : is_digit c = true -> is_sign c = false.
Proof.
  intros Hc. unfold is_sign.
  rewrite (@digit_not_char c "-"), (@digit_not_char c "+"); auto.
Qed.

Lemma digit_not_space (c : ascii) : is_digit c = true -> is_space c = false.
Proof.
  rewrite is_digit_code. unfold is_space. intros Hc.
  apply orb_false_iff. split; [apply Z.eqb_neq; lia|].
  apply andb_false_iff. right. apply Z.leb_gt. lia.
Qed.

(** ** Runs of digits *)

Lemma value_fold (ds : cstring) (acc : Z) :
  fold_left (fun a c => a * 10 + digit_val c) ds acc
  = acc * 10 ^ len ds + value ds.
Proof.
  unfold value, len. revert acc. induction ds as [|c t IH]; intros acc.
  - simpl. lia.
  - cbn [fold_left length]. rewrite IH, (IH (0 * 10 + digit_val c)).
    rewrite Nat2Z.inj_succ, Z.pow_succ_r by lia. ring.
Qed.

Lemma value_nil : value [] = 0.
Proof. reflexivity. Qed.

Lemma value_cons (c : ascii) (t : cstring) :
  value (c :: t) = digit_val c * 10 ^ len t + value t.
Proof.
  unfold value at 1. cbn [fold_left]. rewrite value_fold. ring.
Qed.

Lemma len_app (a b : cstring) : len (a ++ b) = len a + len b.
Proof. unfold len. rewrite length_app. lia. Qed.

Lemma len_nonneg (a : cstring) : 0 <= len a.
Proof. unfold len. lia. Qed.

Lemma value_app (a b : cstring) :
  value (a ++ b) = value a * 10 ^ len b + value b.
Proof.
  unfold value at 1. rewrite fold_left_app. fold (value a).
  apply value_fold.
Qed.

Lemma value_snoc (a : cstring) (c : ascii) :
  value (a ++ [c]) = value a * 10 + digit_val c.
Proof.
  rewrite value_app. change (len [c]) with 1. rewrite value_cons.
  change (len []) with 0. rewrite value_nil. lia.
Qed.

Lemma value_bounds (ds : cstring) : digits ds -> 0 <= value ds < 10 ^ len ds.
Proof.
  induction 1 as [|c t Hc Ht IH].
  - rewrite value_nil. change (len []) with 0. lia.
  - rewrite value_cons. apply digit_val_range in Hc.
    replace (len (c :: t)) with (Z.succ (len t)) by (unfold len; simpl length; lia).
    rewrite Z.pow_succ_r by apply len_nonneg. nia.
Qed.

Lemma value_leading (ds : cstring) :
  digits ds -> leading ds -> 10 ^ (len ds - 1) <= value ds.
Proof.
  destruct ds as [|c t]; [contradiction|]. intros Hd Hl. simpl in Hl.
  inversion Hd as [|? ? Hc Ht]; subst. rewrite value_cons.
  replace (len (c :: t) - 1) with (len t) by (unfold len; simpl length; lia).
  pose proof (value_bounds Ht). nia.
Qed.

Lemma value_fill (n : Z) (ds : cstring) : value (fill n "0" ++ ds) = value ds.
Proof.
  unfold fill. induction (Z.to_nat n) as [|k IH]; [reflexivity|].
  cbn [repeat app]. rewrite value_cons, IH. reflexivity.
Qed.

Lemma digits_fill (n : Z) : digits (fill n "0").
Proof.
  unfold fill. induction (Z.to_nat n); constructor; auto.
Qed.

Lemma digits_app (a b : cstring) : digits a -> digits b -> digits (a ++ b).
Proof. intros Ha Hb. apply Forall_app. split; assumption. Qed.

(** Two runs of the same length with the same value are the same run. *)
Lemma value_inj (a : cstring) :
  forall b, digits a -> digits b -> length a = length b ->
            value a = value b -> a = b.
Proof.
  induction a as [|c a IH] using rev_ind; intros b Ha Hb Hl Hv.
  - destruct b; [reflexivity|discriminate].
  - destruct b as [|d b _] using rev_ind.
    + rewrite length_app in Hl. simpl in Hl. lia.
    + apply Forall_app in Ha as [Ha Hc]. apply Forall_app in Hb as [Hb Hd].
      inversion Hc as [|? ? Hc' _]; inversion Hd as [|? ? Hd' _]; subst.
      rewrite !value_snoc in Hv. rewrite !length_app in Hl. simpl in Hl.
      apply digit_val_range in Hc', Hd'.
      assert (value a = value b /\ digit_val c = digit_val d) as [E1 E2] by lia.
      f_equal; [apply IH; auto; lia|]. f_equal. now apply digit_val_inj.
Qed.

(** ** [std::to_string] *)

Lemma leading_app (a b : cstring) : leading a -> leading (a ++ b).
Proof. destruct a; [contradiction|auto]. Qed.

Lemma digits_rec_spec (f : nat) :
  forall (k : nat) (n : Z) (acc : cstring),
    (1 <= k <= f)%nat -> 0 <= n < 10 ^ Z.of_nat k ->
    exists ds, digits_rec f n acc = ds ++ acc
               /\ decimal n ds /\ (length ds <= k)%nat.
Proof.
  induction f as [|f IH]; intros k n acc Hk Hn; [lia|].
  cbn [digits_rec].
  assert (Hm : 0 <= n mod 10 < 10) by (apply Z.mod_pos_bound; lia).
  pose proof (Z.div_mod n 10 ltac:(lia)) as Hdm.
  destruct (Z.eqb_spec (n / 10) 0) as [E|E].
  - exists [digit_of (n mod 10)]. split; [reflexivity|]. split.
    + split.
      * constructor; [now apply is_digit_digit_of|constructor].
      * unfold value. cbn [fold_left]. rewrite digit_val_digit_of by lia. lia.
      * discriminate.
      * intros Hpos. cbn [leading]. rewrite digit_val_digit_of by lia. lia.
    + simpl. lia.
  - assert (Hq : 0 < n / 10) by (pose proof (Z.div_pos n 10); lia).
    destruct k as [|[|k]]; [lia| simpl in Hn; lia |].
    assert (Hq' : n / 10 < 10 ^ Z.of_nat (S k)).
    { apply Z.div_lt_upper_bound; [lia|].
      rewrite <- Z.pow_succ_r by lia. rewrite <- Nat2Z.inj_succ. lia. }
    destruct (IH (S k) (n / 10) (digit_of (n mod 10) :: acc)) as (ds & E1 & D & L);
      [lia|lia|].
    exists (ds ++ [digit_of (n mod 10)]). split.
    + rewrite E1, <- app_assoc. reflexivity.
    + destruct D as [D1 D2 D3 D4]. split.
      * split.
        -- apply digits_app; [assumption|].
           constructor; [now apply is_digit_digit_of|constructor].
        -- rewrite value_snoc, D2, digit_val_digit_of by lia. lia.
        -- destruct ds; discriminate.
        -- intros _. apply leading_app. apply D4. lia.
      * rewrite length_app. simpl. lia.
Qed.

Lemma to_string_u64_decimal (n : Z) :
  0 <= n <= UINT64_MAX -> decimal n (to_string_u64 n).
Proof.
  intros Hn. unfold to_string_u64.
  destruct (@digits_rec_spec 20 20 n []) as (ds & E & D & _);
    [lia | unfold UINT64_MAX in Hn; simpl; lia |].
  rewrite E, app_nil_r. exact D.
Qed.

Lemma to_string_u64_length (k : nat) (n : Z) :
  (1 <= k <= 20)%nat -> 0 <= n < 10 ^ Z.of_nat k ->
  (length (to_string_u64 n) <= k)%nat.
Proof.
  intros Hk Hn. unfold to_string_u64.
  destruct (@digits_rec_spec 20 k n []) as (ds & E & _ & L); [lia|lia|].
  rewrite E, app_nil_r. exact L.
Qed.

Lemma decimal_length_unique (n : Z) (a b : cstring) :
  0 < n -> decimal n a -> decimal n b -> length a = length b.
Proof.
  intros Hn [A1 A2 _ A4] [B1 B2 _ B4].
  pose proof (value_bounds A1) as HA. pose proof (value_bounds B1) as HB.
  pose proof (value_leading A1 (A4 Hn)) as LA.
  pose proof (value_leading B1 (B4 Hn)) as LB.
  rewrite A2 in *. rewrite B2 in *. unfold len in *.
  destruct (Nat.lt_trichotomy (length a) (length b)) as [L|[L|L]]; [|assumption|].
  - exfalso.
    assert (10 ^ Z.of_nat (length a) <= 10 ^ (Z.of_nat (length b) - 1))
      by (apply Z.pow_le_mono_r; lia).
    lia.
  - exfalso.
    assert (10 ^ Z.of_nat (length b) <= 10 ^ (Z.of_nat (length a) - 1))
      by (apply Z.pow_le_mono_r; lia).
    lia.
Qed.

(** The decimal writing of a positive number is unique. *)
Lemma decimal_unique (n : Z) (a b : cstring) :
  0 < n -> decimal n a -> decimal n b -> a = b.
Proof.
  intros Hn Da Db. pose proof (decimal_length_unique Hn Da Db) as L.
  destruct Da as [A1 A2 _ _], Db as [B1 B2 _ _].
  apply value_inj; auto. congruence.
Qed.

Lemma padded_spec (k : nat) (n : Z) :
  (1 <= k <= 19)%nat -> 0 <= n < 10 ^ Z.of_nat k ->
  let p := padded (Z.of_nat k) (to_string_u64 n) in
  digits p /\ value p = n /\ length p = k.
Proof.
  intros Hk Hn p. subst p. unfold padded.
  assert (Hmax : 10 ^ Z.of_nat k <= 10 ^ 19) by (apply Z.pow_le_mono_r; lia).
  destruct (@to_string_u64_decimal n) as [D1 D2 _ _];
    [unfold UINT64_MAX; lia|].
  pose proof (@to_string_u64_length k n ltac:(lia) Hn) as L.
  assert (E : to_size_t (Z.of_nat k - len (to_string_u64 n))
              = Z.of_nat k - len (to_string_u64 n)).
  { unfold to_size_t, len. apply Z.mod_small. lia. }
  rewrite E. split; [|split].
  - apply digits_app; [apply digits_fill | assumption].
  - now rewrite value_fill.
  - unfold fill, len. rewrite length_app, repeat_length. lia.
Qed.

(** ** The formatters *)

Lemma to_u64_small (z : Z) : 0 <= z <= UINT64_MAX -> to_u64 z = z.
Proof. unfold UINT64_MAX, to_u64. intros H. apply Z.mod_small. lia. Qed.

Lemma to_i64_small (z : Z) : INT64_MIN <= z <= INT64_MAX -> to_i64 z = z.
Proof.
  unfold INT64_MIN, INT64_MAX, to_i64. intros H.
  rewrite Z.mod_small; lia.
Qed.

Lemma to_u128_small (z : Z) : 0 <= z <= UINT128_MAX -> to_u128 z = z.
Proof. unfold UINT128_MAX, to_u128. intros H. apply Z.mod_small. lia. Qed.

Lemma string_of_u128_rec_else (f : nat) (u : Z) :
  UINT64_MAX < u ->
  string_of_u128_rec (S f) u
  = (h <- string_of_u128_rec f (u / P10_UINT64) ;;
     Ok (h ++ padded E10_UINT64
                  (to_string_u64 (to_u64 (u mod P10_UINT64))))).
Proof.
  intros Hu. cbn [string_of_u128_rec].
  destruct (Z.leb_spec u UINT64_MAX); [lia|reflexivity].
Qed.

Lemma low_chunk_u (u : Z) :
  0 <= u ->
  let p := padded E10_UINT64 (to_string_u64 (to_u64 (u mod P10_UINT64))) in
  digits p /\ value p = u mod P10_UINT64 /\ length p = 19%nat.
Proof.
  intros Hu.
  assert (Hlo : 0 <= u mod P10_UINT64 < 10 ^ 19)
    by (apply Z.mod_pos_bound; reflexivity).
  rewrite to_u64_small by (unfold UINT64_MAX; lia).
  apply (@padded_spec 19 (u mod P10_UINT64)); [lia|exact Hlo].
Qed.

Lemma string_of_u128_rec_spec (f : nat) :
  forall u, 0 <= u < 10 ^ (19 * (Z.of_nat f + 1)) ->
            exists ds, string_of_u128_rec (S f) u = Ok ds /\ decimal u ds.
Proof.
  induction f as [|f IH]; intros u Hu.
  - cbn [string_of_u128_rec]. simpl in Hu.
    destruct (Z.leb_spec u UINT64_MAX) as [L|L]; [|unfold UINT64_MAX in L; lia].
    rewrite to_u64_small by lia. eexists. split; [reflexivity|].
    now apply to_string_u64_decimal.
  - destruct (Z.leb_spec u UINT64_MAX) as [L|L].
    + cbn [string_of_u128_rec]. destruct (Z.leb_spec u UINT64_MAX); [|lia].
      rewrite to_u64_small by lia. eexists. split; [reflexivity|].
      now apply to_string_u64_decimal.
    + rewrite string_of_u128_rec_else by assumption.
      pose proof (Z.div_mod u P10_UINT64 ltac:(discriminate)) as Hdm.
      assert (Hlo : 0 <= u mod P10_UINT64 < P10_UINT64)
        by (apply Z.mod_pos_bound; reflexivity).
      assert (Hhi : 0 < u / P10_UINT64 < 10 ^ (19 * (Z.of_nat f + 1))).
      { split.
        - apply Z.div_str_pos. unfold UINT64_MAX, P10_UINT64 in *. lia.
        - apply Z.div_lt_upper_bound; [reflexivity|].
          change P10_UINT64 with (10 ^ 19). rewrite <- Z.pow_add_r by lia.
          replace (19 + 19 * (Z.of_nat f + 1))
            with (19 * (Z.of_nat (S f) + 1)) by lia.
          lia. }
      destruct (IH (u / P10_UINT64)) as (h & Eh & [H1 H2 H3 H4]); [lia|].
      rewrite Eh. cbn [bind].
      destruct (@low_chunk_u u ltac:(lia)) as (P1 & P2 & P3).
      eexists. split; [reflexivity|]. split.
      * now apply digits_app.
      * rewrite value_app, H2, P2. unfold len. rewrite P3.
        change (10 ^ Z.of_nat 19) with P10_UINT64. lia.
      * destruct h; [contradiction|discriminate].
      * intros _. apply leading_app. apply H4. lia.
Qed.

Lemma string_of_u128_decimal (u : Z) :
  0 <= u <= UINT128_MAX ->
  exists ds, string_of_u128 u = Ok ds /\ decimal u ds.
Proof.
  intros Hu. apply (@string_of_u128_rec_spec 2).
  unfold UINT128_MAX in Hu. simpl. lia.
Qed.

Lemma to_string_i64_sdecimal (n : Z) :
  INT64_MIN <= n <= INT64_MAX -> sdecimal n (to_string_i64 n).
Proof.
  unfold INT64_MIN, INT64_MAX, sdecimal, to_string_i64, sign_of. intros Hn.
  destruct (Z.ltb_spec n 0) as [L|L].
  - exists (to_string_u64 (- n)). split; [reflexivity|].
    replace (Z.abs n) with (- n) by lia.
    apply to_string_u64_decimal. unfold UINT64_MAX. lia.
  - exists (to_string_u64 n). split; [reflexivity|].
    replace (Z.abs n) with n by lia.
    apply to_string_u64_decimal. unfold UINT64_MAX. lia.
Qed.

Lemma string_of_i128_rec_else (f : nat) (i : Z) :
  i < INT64_MIN \/ INT64_MAX < i ->
  string_of_i128_rec (S f) i
  = (h <- string_of_i128_rec f (Z.quot i P10_INT64) ;;
     Ok (h ++ padded E10_INT64
                  (to_string_i64 (Z.abs (to_i64 (Z.rem i P10_INT64)))))).
Proof.
  intros Hi. cbn [string_of_i128_rec].
  destruct (Z.leb_spec INT64_MIN i), (Z.leb_spec i INT64_MAX);
    try reflexivity; lia.
Qed.

Lemma quot_rem_abs (i p : Z) :
  0 < p ->
  Z.abs (Z.quot i p) = Z.abs i / p /\ Z.abs (Z.rem i p) = Z.abs i mod p
  /\ (p <= Z.abs i -> (Z.quot i p <? 0) = (i <? 0)).
Proof.
  intros Hp. destruct (Z.le_gt_cases 0 i) as [L|L].
  - rewrite Z.quot_div_nonneg, Z.rem_mod_nonneg by lia.
    assert (0 <= i / p) by (apply Z.div_pos; lia).
    assert (0 <= i mod p < p) by (apply Z.mod_pos_bound; lia).
    replace (Z.abs i) with i by lia. repeat split; lia.
  - assert (Ei : i = - (- i)) by lia.
    assert (Hq : Z.quot i p = - ((- i) / p)).
    { rewrite Ei at 1. rewrite Z.quot_opp_l by lia.
      rewrite Z.quot_div_nonneg by lia. reflexivity. }
    assert (Hr : Z.rem i p = - ((- i) mod p)).
    { rewrite Ei at 1. rewrite Z.rem_opp_l by lia.
      rewrite Z.rem_mod_nonneg by lia. reflexivity. }
    rewrite Hq, Hr.
    assert (0 <= (- i) / p) by (apply Z.div_pos; lia).
    assert (0 <= (- i) mod p < p) by (apply Z.mod_pos_bound; lia).
    assert (p <= - i -> 0 < (- i) / p) by (intros; apply Z.div_str_pos; lia).
    replace (Z.abs i) with (- i) by lia. repeat split; lia.
Qed.

Lemma low_chunk_i (i : Z) :
  let p := padded E10_INT64
             (to_string_i64 (Z.abs (to_i64 (Z.rem i P10_INT64)))) in
  digits p /\ value p = Z.abs i mod P10_INT64 /\ length p = 18%nat.
Proof.
  destruct (@quot_rem_abs i P10_INT64 ltac:(reflexivity)) as (_ & Hr & _).
  assert (Hlo : 0 <= Z.abs i mod P10_INT64 < 10 ^ 18)
    by (apply Z.mod_pos_bound; reflexivity).
  rewrite to_i64_small by (unfold INT64_MIN, INT64_MAX; lia).
  rewrite Hr. unfold to_string_i64.
  destruct (Z.ltb_spec (Z.abs i mod P10_INT64) 0); [lia|].
  apply (@padded_spec 18 (Z.abs i mod P10_INT64)); [lia|exact Hlo].
Qed.

Lemma string_of_i128_rec_spec (f : nat) :
  forall i, Z.abs i < 10 ^ (18 * (Z.of_nat f + 1)) ->
            exists s, string_of_i128_rec (S f) i = Ok s /\ sdecimal i s.
Proof.
  assert (Direct : forall g i, INT64_MIN <= i <= INT64_MAX ->
            exists s, string_of_i128_rec (S g) i = Ok s /\ sdecimal i s).
  { intros g i Hi. cbn [string_of_i128_rec].
    destruct (Z.leb_spec INT64_MIN i), (Z.leb_spec i INT64_MAX); try lia.
    cbn [andb]. rewrite to_i64_small by lia.
    eexists. split; [reflexivity|]. now apply to_string_i64_sdecimal. }
  induction f as [|f IH]; intros i Hi.
  - apply Direct. simpl in Hi. unfold INT64_MIN, INT64_MAX. lia.
  - destruct (Z.le_gt_cases INT64_MIN i) as [L1|L1];
      [destruct (Z.le_gt_cases i INT64_MAX) as [L2|L2]|];
      [apply Direct; lia| |].
    all: rewrite string_of_i128_rec_else by lia.
    all: destruct (@quot_rem_abs i P10_INT64 ltac:(reflexivity)) as (Hq & _ & Hs).
    all: pose proof (Z.div_mod (Z.abs i) P10_INT64 ltac:(discriminate)) as Hdm.
    all: assert (Hlo : 0 <= Z.abs i mod P10_INT64 < P10_INT64)
        by (apply Z.mod_pos_bound; reflexivity).
    all: assert (Hbig : P10_INT64 <= Z.abs i)
        by (unfold INT64_MIN, INT64_MAX, P10_INT64 in *; lia).
    all: assert (Hhi : 0 < Z.abs i / P10_INT64 < 10 ^ (18 * (Z.of_nat f + 1)));
      [ split;
        [ apply Z.div_str_pos; unfold P10_INT64 in *; lia
        | apply Z.div_lt_upper_bound; [reflexivity|];
          change P10_INT64 with (10 ^ 18); rewrite <- Z.pow_add_r by lia;
          replace (18 + 18 * (Z.of_nat f + 1))
            with (18 * (Z.of_nat (S f) + 1)) by lia; lia ] | ].
    all: destruct (IH (Z.quot i P10_INT64)) as (h & Eh & dh & Eh' & [H1 H2 H3 H4]);
      [lia|].
    all: rewrite Eh; cbn [bind].
    all: destruct (low_chunk_i i) as (P1 & P2 & P3).
    all: eexists; split; [reflexivity|].
    all: exists (dh ++ padded E10_INT64
                  (to_string_i64 (Z.abs (to_i64 (Z.rem i P10_INT64))))).
    all: split;
      [ rewrite Eh'; unfold sign_of; rewrite (Hs Hbig), <- app_assoc; reflexivity |].
    all: split;
      [ now apply digits_app
      | rewrite value_app, H2, P2; unfold len; rewrite P3;
        change (10 ^ Z.of_nat 18) with P10_INT64; lia
      | destruct dh; [contradiction|discriminate]
      | intros _; apply leading_app; apply H4; lia ].
Qed.

Lemma string_of_i128_sdecimal (i : Z) :
  INT128_MIN <= i <= INT128_MAX ->
  exists s, string_of_i128 i = Ok s /\ sdecimal i s.
Proof.
  intros Hi. apply (@string_of_i128_rec_spec 2).
  unfold INT128_MIN, INT128_MAX in Hi. simpl. lia.
Qed.

(** ** [std::stoull] and [std::stoll] on a sign and digits *)

Lemma take_digits_all (ds : cstring) : digits ds -> take_digits ds = ds.
Proof.
  induction 1 as [|c t Hc _ IH]; [reflexivity|].
  cbn [take_digits]. now rewrite Hc, IH.
Qed.

Lemma scan_number_signed (sg : sign) (ds : cstring) :
  digits ds -> ds <> [] ->
  scan_number (sign_chars sg ++ ds)
  = (match sg with Minus => true | _ => false end, ds).
Proof.
  intros Hd Hne. destruct sg; cbn [sign_chars app].
  - destruct ds as [|c t]; [contradiction|].
    inversion Hd as [|? ? Hc Ht]; subst.
    unfold scan_number. cbn [skip_spaces].
    rewrite (digit_not_space _ Hc).
    rewrite (@digit_not_char c "-"), (@digit_not_char c "+") by auto.
    now rewrite take_digits_all.
  - unfold scan_number. cbn. now rewrite take_digits_all.
  - unfold scan_number. cbn. now rewrite take_digits_all.
Qed.

Lemma stoull_digits (ds : cstring) :
  digits ds -> ds <> [] -> value ds <= UINT64_MAX -> stoull ds = Ok (value ds).
Proof.
  intros Hd Hne Hv. unfold stoull.
  pose proof (@scan_number_signed NoSign ds Hd Hne) as E.
  cbn [sign_chars app] in E. rewrite E.
  destruct ds; [contradiction|].
  destruct (Z.gtb_spec (value (a :: ds)) UINT64_MAX); [lia|reflexivity].
Qed.

Lemma stoll_signed (sg : sign) (ds : cstring) :
  digits ds -> ds <> [] ->
  INT64_MIN <= signed sg (value ds) <= INT64_MAX ->
  stoll (sign_chars sg ++ ds) = Ok (signed sg (value ds)).
Proof.
  intros Hd Hne Hv. unfold stoll.
  rewrite (@scan_number_signed sg ds Hd Hne).
  destruct ds as [|c t]; [contradiction|].
  assert (E : (if match sg with Minus => true | _ => false end
               then - value (c :: t) else value (c :: t))
              = signed sg (value (c :: t))) by (destruct sg; reflexivity).
  cbv zeta. rewrite E.
  destruct (Z.leb_spec INT64_MIN (signed sg (value (c :: t))));
    destruct (Z.leb_spec (signed sg (value (c :: t))) INT64_MAX);
    try lia; reflexivity.
Qed.

Lemma stoll_no_digit (c : ascii) : is_sign c = true -> stoll [c] = Throw invalid_argument.
Proof.
  unfold is_sign. intros H. apply orb_true_iff in H as [H|H];
    apply Ascii.eqb_eq in H; subst; reflexivity.
Qed.

Lemma stoull_no_digit (c : ascii) : is_sign c = true -> stoull [c] = Throw invalid_argument.
Proof.
  unfold is_sign. intros H. apply orb_true_iff in H as [H|H];
    apply Ascii.eqb_eq in H; subst; reflexivity.
Qed.

(** ** The parsers *)

Lemma len_pos (s : cstring) : s <> [] -> (len s >? 0) = true.
Proof.
  destruct s; [contradiction|]. intros _. unfold len. simpl length.
  apply Z.gtb_lt. lia.
Qed.

Lemma split_low (s : cstring) (w : nat) :
  (w <= length s)%nat ->
  let k := (length s - w)%nat in
  substr s 0 k = firstn k s
  /\ substr s k w = skipn k s
  /\ length (firstn k s) = k
  /\ length (skipn k s) = w
  /\ s = firstn k s ++ skipn k s.
Proof.
  intros Hw k. unfold substr. cbn [skipn].
  assert (L2 : length (skipn k s) = w) by (rewrite length_skipn; lia).
  repeat split.
  - rewrite firstn_all2; [reflexivity|lia].
  - rewrite length_firstn. lia.
  - exact L2.
  - symmetry. apply firstn_skipn.
Qed.

Lemma u128_of_string_rec_digits (f : nat) :
  forall ds, (length ds <= f)%nat -> digits ds -> ds <> [] ->
             value ds <= UINT128_MAX ->
             u128_of_string_rec f ds = Ok (value ds).
Proof.
  induction f as [|f IH]; intros ds Hf Hd Hne Hv.
  - destruct ds; [contradiction|simpl in Hf; lia].
  - cbn [u128_of_string_rec]. rewrite (len_pos Hne). cbn [negb].
    pose proof (value_bounds Hd) as Hb.
    destruct (Z.leb_spec (len ds) E10_UINT64) as [L|L].
    + apply stoull_digits; auto.
      assert (10 ^ len ds <= 10 ^ 19)
        by (apply Z.pow_le_mono_r; unfold E10_UINT64 in L; lia).
      unfold UINT64_MAX. lia.
    + unfold E10_UINT64, len in L.
      replace (Z.to_nat (len ds - E10_UINT64)) with (length ds - 19)%nat
        by (unfold len, E10_UINT64; lia).
      change (Z.to_nat E10_UINT64) with 19%nat.
      destruct (@split_low ds 19 ltac:(lia)) as (E1 & E2 & L1 & L2 & E3).
      rewrite E1, E2.
      set (a := firstn (length ds - 19) ds) in *.
      set (b := skipn (length ds - 19) ds) in *.
      assert (Hab : digits a /\ digits b)
        by (apply Forall_app; rewrite <- E3; exact Hd).
      destruct Hab as [Ha Hb'].
      pose proof (value_bounds Ha) as Ba. pose proof (value_bounds Hb') as Bb.
      assert (Ev : value ds = value a * P10_UINT64 + value b).
      { rewrite E3 at 1. rewrite value_app. unfold len. rewrite L2. reflexivity. }
      unfold len in Bb. rewrite L2 in Bb. change (10 ^ Z.of_nat 19) with P10_UINT64 in Bb.
      assert (P10_UINT64 = 10 ^ 19) by reflexivity.
      rewrite (IH a), (IH b); cbn [bind].
      * rewrite <- Ev. now rewrite to_u128_small by lia.
      * lia.
      * exact Hb'.
      * intros Eb. rewrite Eb in L2. discriminate L2.
      * unfold UINT128_MAX. lia.
      * lia.
      * exact Ha.
      * intros Ea. rewrite Ea in L1. simpl in L1. lia.
      * nia.
Qed.

Lemma u128_of_string_digits (ds : cstring) :
  digits ds -> ds <> [] -> value ds <= UINT128_MAX ->
  u128_of_string ds = Ok (value ds).
Proof.
  intros. apply u128_of_string_rec_digits; auto.
Qed.

Lemma i128_ok (z : Z) : INT128_MIN <= z <= INT128_MAX -> i128 z = Ok z.
Proof.
  intros H. unfold i128.
  destruct (Z.leb_spec INT128_MIN z), (Z.leb_spec z INT128_MAX); try lia.
  reflexivity.
Qed.

Lemma first_is_sign (sg : sign) (ds : cstring) :
  digits ds -> ds <> [] ->
  E10_INT64 + (if is_sign (nth 0 (sign_chars sg ++ ds) "000"%char) then 1 else 0)
  = 18 + len (sign_chars sg).
Proof.
  intros Hd Hne. destruct sg; try reflexivity.
  destruct ds as [|c t]; [contradiction|].
  inversion Hd as [|? ? Hc _]; subst.
  cbn [sign_chars app nth]. now rewrite (digit_not_sign _ Hc).
Qed.

Lemma split_signed (sg : sign) (ds : cstring) :
  (18 < length ds)%nat ->
  let s := sign_chars sg ++ ds in
  let k := Z.to_nat (len s - E10_INT64) in
  let j := (length ds - 18)%nat in
  substr s 0 k = sign_chars sg ++ firstn j ds
  /\ substr s k (Z.to_nat E10_INT64) = sign_chars NoSign ++ skipn j ds.
Proof.
  intros Hl s k j.
  assert (Ek : k = (length (sign_chars sg) + j)%nat).
  { subst k s j. unfold len, E10_INT64. rewrite length_app. lia. }
  destruct (@split_low ds 18 ltac:(lia)) as (_ & _ & _ & L2 & _).
  fold j in L2. unfold substr. cbn [skipn sign_chars app]. rewrite Ek. subst s.
  split.
  - rewrite firstn_app.
    rewrite firstn_all2 by lia. f_equal. f_equal. lia.
  - rewrite skipn_app, skipn_all2 by lia. cbn [app].
    replace (length (sign_chars sg) + j - length (sign_chars sg))%nat with j by lia.
    apply firstn_all2. change (Z.to_nat E10_INT64) with 18%nat. lia.
Qed.

Lemma leading_firstn (k : nat) (ds : cstring) :
  (0 < k)%nat -> leading ds -> leading (firstn k ds).
Proof.
  destruct k; [lia|]. destruct ds; [contradiction|auto].
Qed.

Lemma value_firstn_le (k : nat) (ds : cstring) :
  digits ds -> 0 <= value (firstn k ds) <= value ds.
Proof.
  intros Hd. rewrite <- (firstn_skipn k ds) in Hd.
  apply Forall_app in Hd as [H1 H2].
  pose proof (value_bounds H1). pose proof (value_bounds H2).
  rewrite <- (firstn_skipn k ds) at 3. rewrite value_app.
  assert (0 < 10 ^ len (skipn k ds)) by (apply Z.pow_pos_nonneg; unfold len; lia).
  nia.
Qed.

Lemma top_chunk_firstn (ds : cstring) :
  (18 < length ds)%nat ->
  top_chunk (firstn (length ds - 18) ds) = top_chunk ds.
Proof.
  intros Hl. unfold top_chunk.
  rewrite length_firstn, Nat.min_l by lia.
  assert (E : ((length ds - 1) mod 18 = (length ds - 18 - 1) mod 18)%nat).
  { replace (length ds - 1)%nat with (length ds - 18 - 1 + 1 * 18)%nat by lia.
    apply Nat.Div0.mod_add. }
  rewrite E, firstn_firstn. f_equal.
  pose proof (Nat.Div0.mod_le (length ds - 18 - 1) 18). lia.
Qed.

Lemma top_chunk_leading (ds : cstring) :
  digits ds -> leading ds -> 0 < value (top_chunk ds).
Proof.
  intros Hd Hl. unfold top_chunk.
  set (k := ((length ds - 1) mod 18 + 1)%nat).
  assert (Hk : (0 < k)%nat) by (subst k; lia).
  assert (Hdk : digits (firstn k ds)).
  { rewrite <- (firstn_skipn k ds) in Hd. now apply Forall_app in Hd. }
  pose proof (value_leading Hdk (@leading_firstn k ds Hk Hl)).
  assert (0 < 10 ^ (len (firstn k ds) - 1)); [|lia].
  apply Z.pow_pos_nonneg; [lia|].
  destruct ds; [contradiction|]. unfold len. rewrite length_firstn.
  simpl length. lia.
Qed.

Lemma i128_of_string_rec_signed (f : nat) :
  forall (sg : sign) (ds : cstring),
    (length (sign_chars sg ++ ds) <= f)%nat -> digits ds -> ds <> [] ->
    INT128_MIN <= signed sg (value ds) <= INT128_MAX ->
    (sg = Minus -> value (top_chunk ds) = 0 -> value ds = 0) ->
    i128_of_string_rec f (sign_chars sg ++ ds) = Ok (signed sg (value ds)).
Proof.
  induction f as [|f IH]; intros sg ds Hf Hd Hne Hv Htop.
  - rewrite length_app in Hf. destruct ds; [contradiction|simpl in Hf; lia].
  - cbn [i128_of_string_rec].
    assert (Hs : sign_chars sg ++ ds <> [])
      by (destruct sg, ds; try discriminate; contradiction).
    rewrite (len_pos Hs). cbn [negb]. cbv zeta.
    rewrite (first_is_sign sg Hd Hne), len_app.
    pose proof (value_bounds Hd) as Hb.
    destruct (Z.leb_spec (len (sign_chars sg) + len ds) (18 + len (sign_chars sg)))
      as [L|L].
    + apply stoll_signed; auto.
      assert (10 ^ len ds <= 10 ^ 18) by (apply Z.pow_le_mono_r; lia).
      unfold INT64_MIN, INT64_MAX. destruct sg; cbn [signed]; lia.
    + assert (Hl : (18 < length ds)%nat) by (unfold len in L; lia).
      destruct (@split_signed sg ds Hl) as (E1 & E2). rewrite <- len_app.
      rewrite E1, E2.
      destruct (@split_low ds 18 ltac:(lia)) as (_ & _ & L1 & L2 & E3).
      pose proof (@top_chunk_firstn ds Hl) as Etop.
      set (a := firstn (length ds - 18) ds) in *.
      set (b := skipn (length ds - 18) ds) in *.
      assert (Hab : digits a /\ digits b)
        by (apply Forall_app; rewrite <- E3; exact Hd).
      destruct Hab as [Ha Hb'].
      pose proof (value_bounds Ha) as Ba. pose proof (value_bounds Hb') as Bb.
      assert (Ev : value ds = value a * P10_INT64 + value b).
      { rewrite E3 at 1. rewrite value_app. unfold len. rewrite L2. reflexivity. }
      unfold len in Bb. rewrite L2 in Bb.
      change (10 ^ Z.of_nat 18) with P10_INT64 in Bb.
      assert (HP : P10_INT64 = 10 ^ 18) by reflexivity.
      assert (Hane : a <> []) by (intros Ea; rewrite Ea in L1; simpl in L1; lia).
      assert (Hbne : b <> []) by (intros Eb; rewrite Eb in L2; discriminate L2).
      assert (Hfa : (length (sign_chars sg ++ a) <= f)%nat).
      { rewrite length_app in *. rewrite L1. lia. }
      assert (Hfb : (length (sign_chars NoSign ++ b) <= f)%nat).
      { rewrite length_app in *. cbn [sign_chars length]. rewrite L2. lia. }
      assert (Hta : sg = Minus -> value (top_chunk a) = 0 -> value a = 0).
      { intros Esg Hz. rewrite Etop in Hz. specialize (Htop Esg Hz). nia. }
      rewrite (IH sg a), (IH NoSign b); auto; cbn [bind signed].
      * destruct sg; cbn [signed] in *.
        -- destruct (Z.geb_spec (value a) 0); [|lia].
           rewrite i128_ok by (unfold INT128_MIN in *; nia). cbn [bind].
           rewrite i128_ok by (unfold INT128_MIN in *; nia). f_equal. lia.
        -- destruct (Z.geb_spec (value a) 0); [|lia].
           rewrite i128_ok by (unfold INT128_MIN in *; nia). cbn [bind].
           rewrite i128_ok by (unfold INT128_MIN in *; nia). f_equal. lia.
        -- destruct (Z.geb_spec (- value a) 0) as [G|G].
           ++ assert (Ha0 : value a = 0) by lia.
              pose proof (@value_firstn_le ((length a - 1) mod 18 + 1) a Ha) as Hle.
              fold (top_chunk a) in Hle.
              assert (Hds0 : value ds = 0)
                by (apply (Htop eq_refl); rewrite <- Etop; lia).
              assert (Hb0 : value b = 0) by nia.
              rewrite Ha0, Hb0, Hds0. reflexivity.
           ++ rewrite i128_ok by (unfold INT128_MAX in *; nia). cbn [bind].
              rewrite i128_ok by (unfold INT128_MAX in *; nia). f_equal. lia.
      * unfold INT128_MIN, INT128_MAX. lia.
      * intros Esg; discriminate.
      * destruct sg; cbn [signed] in *; unfold INT128_MIN, INT128_MAX in *; nia.
Qed.

Lemma i128_of_string_signed (sg : sign) (ds : cstring) :
  digits ds -> ds <> [] ->
  INT128_MIN <= signed sg (value ds) <= INT128_MAX ->
  (sg = Minus -> value (top_chunk ds) = 0 -> value ds = 0) ->
  i128_of_string (sign_chars sg ++ ds) = Ok (signed sg (value ds)).
Proof.
  intros. apply i128_of_string_rec_signed; auto.
Qed.

(** ** The incremental parsers *)

Lemma scan_digits_run (ds rest : cstring) (count : nat) :
  digits ds -> stops rest ->
  scan_digits (ds ++ rest) count = (count + length ds)%nat.
Proof.
  intros Hd Hr. revert count.
  induction Hd as [|c t Hc _ IH]; intros count.
  - cbn [app length]. destruct rest as [|c r]; cbn [scan_digits]; [lia|].
    simpl in Hr. rewrite Hr. lia.
  - cbn [app scan_digits length]. rewrite Hc, IH. lia.
Qed.

Lemma first_char_sign (sg : sign) (ds rest : cstring) :
  digits ds -> ds <> [] ->
  exists c0 t, sign_chars sg ++ ds ++ rest = c0 :: t
               /\ (if is_sign c0 then 1%nat else 0%nat) = length (sign_chars sg).
Proof.
  intros Hd Hne. destruct sg; cbn [sign_chars app].
  - destruct ds as [|c t]; [contradiction|]. inversion Hd as [|? ? Hc _]; subst.
    exists c, (t ++ rest). split; [reflexivity|].
    now rewrite (digit_not_sign _ Hc).
  - eexists _, _. split; reflexivity.
  - eexists _, _. split; reflexivity.
Qed.

Lemma i128_from_chars_run (sg : sign) (ds rest : cstring) :
  digits ds -> ds <> [] -> stops rest ->
  i128_from_chars (sign_chars sg ++ ds ++ rest)
  = (res <- i128_of_string (sign_chars sg ++ ds) ;;
     Ok (length (sign_chars sg ++ ds), res)).
Proof.
  intros Hd Hne Hr.
  destruct (@first_char_sign sg ds rest Hd Hne) as (c0 & t & E & Ec).
  unfold i128_from_chars. rewrite E, Ec, <- E.
  rewrite skipn_app, skipn_all, Nat.sub_diag. cbn [app skipn].
  rewrite scan_digits_run by assumption.
  rewrite <- length_app.
  assert (Hpos : (0 <? length (sign_chars sg ++ ds))%nat = true).
  { apply Nat.ltb_lt. rewrite length_app. destruct ds; [contradiction|simpl; lia]. }
  rewrite Hpos. cbn [negb].
  rewrite app_assoc, firstn_app, firstn_all, Nat.sub_diag.
  cbn [firstn]. now rewrite app_nil_r.
Qed.

Lemma u128_from_chars_run (ds rest : cstring) :
  digits ds -> ds <> [] -> stops rest ->
  u128_from_chars (ds ++ rest)
  = (res <- i128_of_string ds ;; Ok (length ds, to_u128 res)).
Proof.
  intros Hd Hne Hr. unfold u128_from_chars.
  destruct ds as [|c t]; [contradiction|]. cbn [app]. cbv zeta. cbn [skipn].
  change (c :: t ++ rest) with ((c :: t) ++ rest).
  rewrite scan_digits_run by assumption. cbn [Nat.add].
  change (0 <? length (c :: t))%nat with true. cbn [negb].
  rewrite firstn_app, firstn_all, Nat.sub_diag. cbn [firstn].
  now rewrite app_nil_r.
Qed.

(** * The claims *)

(** C1.  For every unsigned 128-bit value [u], parsing the string that
    [string_of_u128] produces gives [u] back; 0, 2^64-1 and 2^64 are
    written "0", "18446744073709551615" and "18446744073709551616". *)
Theorem u128_round_trip :
  (forall u, 0 <= u <= UINT128_MAX ->
             (s <- string_of_u128 u ;; u128_of_string s) = Ok u)
  /\ string_of_u128 0 = Ok (lit "0")
  /\ string_of_u128 (2 ^ 64 - 1) = Ok (lit "18446744073709551615")
  /\ string_of_u128 (2 ^ 64) = Ok (lit "18446744073709551616").
Proof.
  split; [|repeat split; vm_compute; reflexivity].
  intros u Hu.
  destruct (string_of_u128_decimal Hu) as (ds & E & [D1 D2 D3 _]).
  rewrite E. cbn [bind].
  rewrite u128_of_string_digits; auto; [congruence | lia].
Qed.

Lemma u128_round_trip_witness :
  0 <= 2 ^ 64 <= UINT128_MAX
  /\ (s <- string_of_u128 (2 ^ 64) ;; u128_of_string s) = Ok (2 ^ 64).
Proof.
  assert (H : 0 <= 2 ^ 64 <= UINT128_MAX) by (vm_compute; split; discriminate).
  split; [exact H | exact (proj1 u128_round_trip (2 ^ 64) H)].
Defined.

(** C2.  For every signed 128-bit value [i], parsing the string that
    [string_of_i128] produces gives [i] back, the extremes included; -1 and
    -10^19 are written "-1" and "-10000000000000000000". *)
Theorem i128_round_trip :
  (forall i, INT128_MIN <= i <= INT128_MAX ->
             (s <- string_of_i128 i ;; i128_of_string s) = Ok i)
  /\ string_of_i128 (-1) = Ok (lit "-1")
  /\ string_of_i128 (- 10 ^ 19) = Ok (lit "-10000000000000000000")
  /\ (s <- string_of_i128 (- 2 ^ 127) ;; i128_of_string s) = Ok (- 2 ^ 127)
  /\ (s <- string_of_i128 (2 ^ 127 - 1) ;; i128_of_string s) = Ok (2 ^ 127 - 1).
Proof.
  split; [|repeat split; vm_compute; reflexivity].
  intros i Hi.
  destruct (string_of_i128_sdecimal Hi) as (s & E & ds & Es & [D1 D2 D3 D4]).
  rewrite E. cbn [bind]. subst s. unfold sign_of.
  destruct (Z.ltb_spec i 0) as [L|L].
  - change ["-"%char] with (sign_chars Minus).
    rewrite i128_of_string_signed; auto; cbn [signed]; rewrite ?D2.
    + f_equal. lia.
    + lia.
    + intros _ Hz. pose proof (top_chunk_leading D1 (D4 ltac:(lia))). lia.
  - change (@nil ascii) with (sign_chars NoSign).
    rewrite i128_of_string_signed; auto; cbn [signed]; rewrite ?D2.
    + f_equal. lia.
    + lia.
    + discriminate.
Qed.

Lemma i128_round_trip_witness :
  INT128_MIN <= - 10 ^ 19 <= INT128_MAX
  /\ (s <- string_of_i128 (- 10 ^ 19) ;; i128_of_string s) = Ok (- 10 ^ 19).
Proof.
  assert (H : INT128_MIN <= - 10 ^ 19 <= INT128_MAX)
    by (vm_compute; split; discriminate).
  split; [exact H | exact (proj1 i128_round_trip (- 10 ^ 19) H)].
Defined.

(** C3.  When the high part [u / 10^19] (unsigned) or [i / 10^18]
    (signed) is not zero, the formatter writes the high part followed by
    the low chunk on exactly 19 (unsigned) or 18 (signed) characters,
    zeros first; 10^19 + 5 is written "10000000000000000005". *)
Theorem low_chunk_is_padded :
  (forall u, P10_UINT64 <= u <= UINT128_MAX ->
     let lo := padded E10_UINT64 (to_string_u64 (to_u64 (u mod P10_UINT64))) in
     exists h, string_of_u128 (u / P10_UINT64) = Ok h
               /\ string_of_u128 u = Ok (h ++ lo)
               /\ length lo = 19%nat /\ digits lo
               /\ value lo = u mod P10_UINT64)
  /\ (forall i, INT128_MIN <= i <= INT128_MAX -> P10_INT64 <= Z.abs i ->
     let lo := padded E10_INT64
                 (to_string_i64 (Z.abs (to_i64 (Z.rem i P10_INT64)))) in
     exists h, string_of_i128 (Z.quot i P10_INT64) = Ok h
               /\ string_of_i128 i = Ok (h ++ lo)
               /\ length lo = 18%nat /\ digits lo
               /\ value lo = Z.abs (Z.rem i P10_INT64))
  /\ string_of_u128 (10 ^ 19 + 5) = Ok (lit "10000000000000000005")
  /\ string_of_u128 (10 ^ 19 + 5) <> Ok (lit "100000000000000005").
Proof.
  split; [|split; [|split; [vm_compute; reflexivity | vm_compute; discriminate]]].
  - intros u Hu lo.
    assert (HP : P10_UINT64 = 10 ^ 19) by reflexivity.
    pose proof (Z.div_mod u P10_UINT64 ltac:(discriminate)) as Hdm.
    assert (Hlo : 0 <= u mod P10_UINT64 < P10_UINT64)
      by (apply Z.mod_pos_bound; reflexivity).
    assert (Hhi : 0 < u / P10_UINT64 <= u).
    { split; [apply Z.div_str_pos; lia|].
      apply Z.div_le_upper_bound; [reflexivity|]. nia. }
    destruct (@string_of_u128_decimal u ltac:(lia)) as (ds & E & D).
    destruct (@string_of_u128_decimal (u / P10_UINT64) ltac:(lia))
      as (h & Eh & [H1 H2 H3 H4]).
    destruct (@low_chunk_u u ltac:(lia)) as (P1 & P2 & P3). fold lo in P1, P2, P3.
    exists h. repeat split; auto.
    rewrite E. f_equal. apply (@decimal_unique u); [lia|exact D|].
    split.
    + now apply digits_app.
    + rewrite value_app, H2, P2. unfold len. rewrite P3.
      change (10 ^ Z.of_nat 19) with P10_UINT64. lia.
    + destruct h; [contradiction|discriminate].
    + intros _. apply leading_app. apply H4. lia.
  - intros i Hi Hbig lo.
    destruct (@quot_rem_abs i P10_INT64 ltac:(reflexivity)) as (Hq & Hr & Hs).
    pose proof (Z.div_mod (Z.abs i) P10_INT64 ltac:(discriminate)) as Hdm.
    assert (Hlo : 0 <= Z.abs i mod P10_INT64 < P10_INT64)
      by (apply Z.mod_pos_bound; reflexivity).
    assert (HP : P10_INT64 = 10 ^ 18) by reflexivity.
    assert (Hhi : 0 < Z.abs i / P10_INT64 <= Z.abs i).
    { split; [apply Z.div_str_pos; lia|].
      apply Z.div_le_upper_bound; [reflexivity|]. nia. }
    destruct (@string_of_i128_sdecimal i Hi) as (s & E & ds & Es & D).
    destruct (@string_of_i128_sdecimal (Z.quot i P10_INT64))
      as (h & Eh & dh & Eh' & [H1 H2 H3 H4]);
      [unfold INT128_MIN, INT128_MAX in *; lia|].
    destruct (low_chunk_i i) as (P1 & P2 & P3). fold lo in P1, P2, P3.
    exists h. repeat split; auto; [|lia].
    rewrite E, Es, Eh'. f_equal. unfold sign_of. rewrite (Hs Hbig).
    rewrite <- app_assoc. f_equal.
    apply (@decimal_unique (Z.abs i)); [lia|exact D|].
    split.
    + now apply digits_app.
    + rewrite value_app, H2, P2. unfold len. rewrite P3.
      change (10 ^ Z.of_nat 18) with P10_INT64. lia.
    + destruct dh; [contradiction|discriminate].
    + intros _. apply leading_app. apply H4. lia.
Qed.

Lemma low_chunk_is_padded_witness :
  P10_UINT64 <= 10 ^ 19 + 5 <= UINT128_MAX
  /\ exists h, string_of_u128 ((10 ^ 19 + 5) / P10_UINT64) = Ok h
               /\ string_of_u128 (10 ^ 19 + 5)
                  = Ok (h ++ padded E10_UINT64
                               (to_string_u64
                                  (to_u64 ((10 ^ 19 + 5) mod P10_UINT64)))).
Proof.
  assert (H : P10_UINT64 <= 10 ^ 19 + 5 <= UINT128_MAX)
    by (vm_compute; split; discriminate).
  split; [exact H|].
  destruct (proj1 low_chunk_is_padded (10 ^ 19 + 5) H) as (h & E1 & E2 & _).
  exists h. split; [exact E1 | exact E2].
Defined.

(** C4, as the code has it.  On a range that starts with an optional sign,
    then a run of digits [ds] that the range does not continue, where the
    signed value fits [int128_t] and, after a minus sign, the leading chunk
    of the run is zero only when the whole run is,
    [i128_from_chars] returns the length of sign and run with the value;
    on such a range without a sign [u128_from_chars] does the same. *)
Theorem from_chars_consumes_run (sg : sign) (ds rest : cstring) :
  digits ds -> ds <> [] -> stops rest ->
  INT128_MIN <= signed sg (value ds) <= INT128_MAX ->
  (sg = Minus -> value (top_chunk ds) = 0 -> value ds = 0) ->
  i128_from_chars (sign_chars sg ++ ds ++ rest)
  = Ok (length (sign_chars sg ++ ds), signed sg (value ds))
  /\ (sg = NoSign -> u128_from_chars (ds ++ rest) = Ok (length ds, value ds)).
Proof.
  intros Hd Hne Hr Hv Hl. split.
  - rewrite i128_from_chars_run by assumption.
    now rewrite i128_of_string_signed by assumption.
  - intros ->. rewrite u128_from_chars_run by assumption.
    pose proof (@i128_of_string_signed NoSign ds Hd Hne Hv Hl) as E.
    cbn [sign_chars app signed] in E. rewrite E.
    cbn [bind]. cbn [signed] in Hv.
    rewrite to_u128_small; [reflexivity|].
    unfold INT128_MAX, UINT128_MAX in *. pose proof (value_bounds Hd). lia.
Qed.

Lemma from_chars_consumes_run_witness :
  i128_from_chars (lit "123abc") = Ok (3%nat, 123)
  /\ (NoSign = NoSign -> u128_from_chars (lit "123abc") = Ok (3%nat, 123)).
Proof.
  apply (@from_chars_consumes_run NoSign (lit "123") (lit "abc")).
  - repeat constructor.
  - discriminate.
  - reflexivity.
  - vm_compute. split; discriminate.
  - discriminate.
Defined.

(** C4 as stated fails: [u128_from_chars] restarts its count at zero and
    so aborts on a sign; a run of zeros after a minus sign loses the sign
    once the string is split; a value that does not fit [int128_t]
    overflows, also the unsigned values from 2^127 on. *)
Lemma from_chars_counterexample :
  u128_from_chars (lit "+123") = AssertFail
  /\ i128_from_chars (lit "-0000000000000000001") = Ok (20%nat, 1)
  /\ i128_from_chars (lit "999999999999999999999999999999999999999") = Undefined
  /\ u128_from_chars (lit "170141183460469231731687303715884105728") = Undefined.
Proof.
  repeat split; vm_compute; reflexivity.
Qed.

(** C5, as the code has it.  On an empty input the four operations fail
    an assertion; on a sign with no digit after it [i128_of_string],
    [u128_of_string] and [i128_from_chars] throw [std::invalid_argument]. *)
Theorem malformed_input (c : ascii) (rest : cstring) :
  is_sign c = true -> stops rest ->
  i128_of_string [] = AssertFail /\ u128_of_string [] = AssertFail
  /\ i128_from_chars [] = AssertFail /\ u128_from_chars [] = AssertFail
  /\ i128_of_string [c] = Throw invalid_argument
  /\ u128_of_string [c] = Throw invalid_argument
  /\ i128_from_chars (c :: rest) = Throw invalid_argument.
Proof.
  intros Hc Hr. repeat split; try reflexivity.
  - unfold i128_of_string. cbn [length i128_of_string_rec].
    change (len [c] >? 0) with true. cbn [negb nth]. rewrite Hc.
    change (len [c] <=? E10_INT64 + 1) with true. now apply stoll_no_digit.
  - unfold u128_of_string. cbn [length u128_of_string_rec].
    change (len [c] >? 0) with true. cbn [negb].
    change (len [c] <=? E10_UINT64) with true. now apply stoull_no_digit.
  - unfold i128_from_chars. rewrite Hc. cbn [skipn].
    replace (scan_digits rest 1) with 1%nat
      by (destruct rest; [reflexivity|simpl in Hr; cbn [scan_digits]; now rewrite Hr]).
    cbn [Nat.ltb Nat.leb negb firstn].
    unfold i128_of_string. cbn [length i128_of_string_rec].
    change (len [c] >? 0) with true. cbn [negb nth]. rewrite Hc.
    change (len [c] <=? E10_INT64 + 1) with true.
    now rewrite stoll_no_digit.
Qed.

Lemma malformed_input_witness :
  i128_of_string (lit "-") = Throw invalid_argument
  /\ i128_from_chars (lit "-x") = Throw invalid_argument.
Proof.
  destruct (@malformed_input "-"%char (lit "x") eq_refl eq_refl)
    as (_ & _ & _ & _ & H1 & _ & H2).
  split; [exact H1 | exact H2].
Defined.

(** C5 as stated fails: the empty input aborts on [assert] in every
    operation, and [u128_from_chars] aborts on a lone sign. *)
Lemma malformed_input_counterexample :
  i128_of_string (lit "") = AssertFail /\ u128_of_string (lit "") = AssertFail
  /\ i128_from_chars (lit "") = AssertFail /\ u128_from_chars (lit "") = AssertFail
  /\ u128_from_chars (lit "-") = AssertFail.
Proof.
  repeat split; reflexivity.
Qed.

(** ** Bytes *)

Lemma skipn_nth_error {A : Type} (l : list A) :
  forall p b, nth_error l p = Some b -> skipn p l = b :: skipn (S p) l.
Proof.
  induction l as [|a l IH]; intros [|p] b E; try discriminate.
  - simpl in E. injection E as ->. reflexivity.
  - simpl in E. rewrite (IH p b E) at 1. reflexivity.
Qed.

Lemma read_bytes_in_range (mem : list BytesM.Byte) (n : nat) :
  forall p, (p + n <= length mem)%nat ->
            BytesM.read_bytes mem p n = Ok (firstn n (skipn p mem)).
Proof.
  induction n as [|n IH]; intros p Hp; [reflexivity|].
  cbn [BytesM.read_bytes].
  destruct (nth_error mem p) as [b|] eqn:E.
  - rewrite IH by lia. cbn [bind]. now rewrite (skipn_nth_error _ _ E).
  - apply nth_error_None in E. lia.
Qed.

Lemma read_bytes_out_of_range (mem : list BytesM.Byte) (n : nat) :
  forall p, (0 < n)%nat -> (length mem < p + n)%nat ->
            BytesM.read_bytes mem p n = Undefined.
Proof.
  induction n as [|n IH]; intros p Hn Hp; [lia|].
  cbn [BytesM.read_bytes].
  destruct (nth_error mem p) as [b|] eqn:E; [|reflexivity].
  assert (p < length mem)%nat by (apply nth_error_Some; congruence).
  rewrite IH by lia. reflexivity.
Qed.

Lemma toString_in_range (b : BytesM.Bytes) :
  (BytesM.offset b + BytesM.size b <= BytesM.capacity b)%nat ->
  BytesM.toString b = Ok (BytesM.slice b).
Proof.
  unfold BytesM.capacity, BytesM.toString, BytesM.ptr_add, BytesM.slice.
  intros H. destruct (Nat.leb_spec (BytesM.offset b) (length (BytesM.buffer b)));
    [|lia].
  cbn [bind]. now rewrite read_bytes_in_range by lia.
Qed.

Lemma toString_out_of_range (b : BytesM.Bytes) :
  (BytesM.capacity b < BytesM.offset b + BytesM.size b)%nat ->
  BytesM.toString b = Undefined.
Proof.
  unfold BytesM.capacity, BytesM.toString, BytesM.ptr_add.
  intros H. destruct (Nat.leb_spec (BytesM.offset b) (length (BytesM.buffer b)));
    [|reflexivity].
  cbn [bind]. rewrite read_bytes_out_of_range by lia. reflexivity.
Qed.

Lemma map_ascii_of_byte_of_ascii (s : cstring) :
  map ascii_of_byte (map byte_of_ascii s) = s.
Proof.
  induction s as [|c s IH]; [reflexivity|].
  cbn [map]. now rewrite ascii_of_byte_of_ascii, IH.
Qed.

(** C6, as the code has it.  The view constructor checks nothing: for
    every block, size and offset it returns the view with these fields;
    when offset + size exceeds the capacity, it is [toString] of that view
    that reads out of bounds. *)
Theorem view_is_unchecked (buf : list BytesM.Byte) (size_ offset_ : nat) :
  BytesM.view buf size_ offset_ = Ok (BytesM.mkBytes buf size_ offset_)
  /\ ((length buf < offset_ + size_)%nat ->
      (v <- BytesM.view buf size_ offset_ ;; BytesM.toString v) = Undefined).
Proof.
  split; [reflexivity|]. intros H. unfold BytesM.view. cbn [bind].
  now apply toString_out_of_range.
Qed.

Lemma view_is_unchecked_witness :
  (length (map byte_of_ascii (lit "hello")) < 3 + 5)%nat
  /\ (v <- BytesM.view (map byte_of_ascii (lit "hello")) 5 3 ;;
      BytesM.toString v) = Undefined.
Proof.
  assert (H : (length (map byte_of_ascii (lit "hello")) < 3 + 5)%nat)
    by (simpl; lia).
  split; [exact H|].
  exact (proj2 (view_is_unchecked (map byte_of_ascii (lit "hello")) 5 3) H).
Defined.

(** C6 as stated fails: a view with offset 3 and size 5 over a block of
    5 bytes is constructed, no error is reported. *)
Lemma view_counterexample :
  length (map byte_of_ascii (lit "hello")) = 5%nat
  /\ BytesM.view (map byte_of_ascii (lit "hello")) 5 3
     = Ok (BytesM.mkBytes (map byte_of_ascii (lit "hello")) 5 3)
  /\ BytesM.view (map byte_of_ascii (lit "hello")) 5 3 <> Throw out_of_range.
Proof.
  split; [reflexivity|]. split; [reflexivity|discriminate].
Qed.

(** C7.  [toString] of a buffer whose slice lies inside its block returns
    exactly the bytes at positions offset .. offset + size - 1; a buffer
    made from a string has offset 0, the size of the string, and gives the
    string back; the view at offset 2 of size 3 over "hello" gives "llo". *)
Theorem toString_is_slice :
  (forall b, (BytesM.offset b + BytesM.size b <= BytesM.capacity b)%nat ->
     BytesM.toString b = Ok (BytesM.slice b)
     /\ length (BytesM.slice b) = BytesM.size b
     /\ forall i, (i < BytesM.size b)%nat ->
          nth_error (BytesM.slice b) i
          = option_map ascii_of_byte
              (nth_error (BytesM.buffer b) (BytesM.offset b + i)))
  /\ (forall s, BytesM.offset (BytesM.of_string s) = 0%nat
                /\ BytesM.size (BytesM.of_string s) = length s
                /\ BytesM.toString (BytesM.of_string s) = Ok s)
  /\ (v <- BytesM.view (map byte_of_ascii (lit "hello")) 3 2 ;;
      BytesM.toString v) = Ok (lit "llo").
Proof.
  split; [|split; [|reflexivity]].
  - intros b Hb. split; [now apply toString_in_range|].
    unfold BytesM.slice, BytesM.capacity in *. split.
    + rewrite length_map, length_firstn, length_skipn. lia.
    + intros i Hi. rewrite nth_error_map. f_equal.
      rewrite nth_error_firstn.
      destruct (Nat.ltb_spec i (BytesM.size b)); [|lia].
      apply nth_error_skipn.
  - intros s. repeat split.
    rewrite toString_in_range.
    + unfold BytesM.slice, BytesM.of_string. cbn [BytesM.buffer BytesM.size BytesM.offset skipn].
      rewrite <- (length_map byte_of_ascii s), firstn_all.
      now rewrite map_ascii_of_byte_of_ascii.
    + unfold BytesM.capacity, BytesM.of_string. cbn. rewrite length_map. lia.
Qed.

Lemma toString_is_slice_witness :
  (2 + 3 <= length (map byte_of_ascii (lit "hello")))%nat
  /\ BytesM.toString (BytesM.mkBytes (map byte_of_ascii (lit "hello")) 3 2)
     = Ok (lit "llo").
Proof.
  assert (H : (2 + 3 <= length (map byte_of_ascii (lit "hello")))%nat)
    by (simpl; lia).
  split; [exact H|].
  exact (proj1 (proj1 toString_is_slice
                  (BytesM.mkBytes (map byte_of_ascii (lit "hello")) 3 2) H)).
Defined.

(** ** The two set variants *)

Lemma back_snoc {T : Type} (l : list T) (x : T) : back (l ++ [x]) = Ok x.
Proof.
  induction l as [|a l IH]; [reflexivity|].
  cbn [app back]. destruct (l ++ [x]) eqn:E; [|exact IH].
  destruct l; discriminate.
Qed.

Lemma back_defined {T : Type} (l : list T) :
  l <> [] -> exists x, back l = Ok x.
Proof.
  intros Hl. destruct (exists_last Hl) as (l' & x & ->).
  exists x. apply back_snoc.
Qed.

Lemma simple_inserts_l {T : Type} (xs : list T) :
  forall s : SimpleSet.t T, SimpleSet.l (inserts xs s) = SimpleSet.l s ++ xs.
Proof.
  induction xs as [|x xs IH]; intros s; cbn [inserts fold_left].
  - now rewrite app_nil_r.
  - unfold inserts in IH. rewrite IH. cbn. now rewrite <- app_assoc.
Qed.

Lemma window_inserts_l {T : Type} (xs : list T) :
  forall s : SlidingWindow.t T,
    SlidingWindow.l (inserts xs s) = SlidingWindow.l s ++ xs.
Proof.
  induction xs as [|x xs IH]; intros s; cbn [inserts fold_left].
  - now rewrite app_nil_r.
  - unfold inserts in IH. rewrite IH. cbn. now rewrite <- app_assoc.
Qed.

Lemma run_simulation {T : Type} (cs : list (call T)) :
  forall (s1 : SimpleSet.t T) (s2 : SlidingWindow.t T),
    SimpleSet.l s1 = SlidingWindow.l s2 -> run cs s1 = run cs s2.
Proof.
  induction cs as [|c cs IH]; intros s1 s2 E; [reflexivity|].
  destruct c; cbn [run step].
  - f_equal. apply IH. cbn. now rewrite E.
  - f_equal; [|now apply IH]. cbn. unfold SimpleSet.lastUpdate,
      SlidingWindow.lastUpdate. now rewrite E.
  - f_equal; [|now apply IH]. cbn. unfold SimpleSet.size, SlidingWindow.size.
    now rewrite E.
Qed.

Lemma to_u32_small (z : Z) : 0 <= z < 2 ^ 32 -> to_u32 z = z.
Proof. intros H. unfold to_u32. now apply Z.mod_small. Qed.

Lemma size_positive_nonempty {T : Type} (l : list T) :
  1 <= to_u32 (Z.of_nat (length l)) -> l <> [].
Proof.
  intros H ->. vm_compute in H. now apply H.
Qed.

(** C8.  Started empty and given the same inserts, [SimpleSet] and
    [SlidingWindow] return the same [size()] and the same [lastUpdate()];
    the window keeps every element; the same holds for any sequence of
    calls to the three operations of the interface. *)
Theorem variants_agree (T : Type) :
  (forall xs : list T,
     size (inserts xs (SimpleSet.create T))
     = size (inserts xs (SlidingWindow.create T))
     /\ lastUpdate (inserts xs (SimpleSet.create T))
        = lastUpdate (inserts xs (SlidingWindow.create T))
     /\ SlidingWindow.range (inserts xs (SlidingWindow.create T)) = xs)
  /\ (forall cs : list (call T),
        run cs (SimpleSet.create T) = run cs (SlidingWindow.create T)).
Proof.
  split.
  - intros xs. cbn [size lastUpdate SimpleSet_ops SlidingWindow_ops].
    unfold SimpleSet.size, SlidingWindow.size, SimpleSet.lastUpdate,
      SlidingWindow.lastUpdate, SlidingWindow.range.
    rewrite simple_inserts_l, window_inserts_l. repeat split.
  - intros cs. now apply run_simulation.
Qed.

Lemma variants_agree_witness :
  run [CInsert 1; CSize; CInsert 2; CLastUpdate] (SimpleSet.create Z)
  = run [CInsert 1; CSize; CInsert 2; CLastUpdate] (SlidingWindow.create Z).
Proof.
  exact (proj2 (variants_agree Z) [CInsert 1; CSize; CInsert 2; CLastUpdate]).
Defined.

(** C9, as the code has it.  After x1..xn are inserted in order into a
    fresh [SimpleSet] or [SlidingWindow], [size()] returns n reduced to a
    [uint32_t], which is n below 2^32, and [lastUpdate()] returns xn with
    an empty list; [insert] appends at the young end, and asking again
    without a call to [insert] between returns the same. *)
Theorem after_inserts (T : Type) (xs : list T) (xn : T) :
  let n := Z.of_nat (length (xs ++ [xn])) in
  let a := inserts (xs ++ [xn]) (SimpleSet.create T) in
  let w := inserts (xs ++ [xn]) (SlidingWindow.create T) in
  size a = to_u32 n /\ size w = to_u32 n
  /\ (n < 2 ^ 32 -> size a = n /\ size w = n)
  /\ lastUpdate a = Ok (xn, []) /\ lastUpdate w = Ok (xn, [])
  /\ SimpleSet.l a = xs ++ [xn] /\ SlidingWindow.l w = xs ++ [xn]
  /\ (forall (x : T) (s : SimpleSet.t T),
        SimpleSet.l (insert x s) = SimpleSet.l s ++ [x])
  /\ (forall (x : T) (s : SlidingWindow.t T),
        SlidingWindow.l (insert x s) = SlidingWindow.l s ++ [x])
  /\ run [CLastUpdate; CSize; CLastUpdate; CSize] a
     = [RLast (Ok (xn, [])); RSize (to_u32 n);
        RLast (Ok (xn, [])); RSize (to_u32 n)]
  /\ run [CLastUpdate; CSize; CLastUpdate; CSize] w
     = [RLast (Ok (xn, [])); RSize (to_u32 n);
        RLast (Ok (xn, [])); RSize (to_u32 n)].
Proof.
  intros n a w.
  assert (La : SimpleSet.l a = xs ++ [xn]) by apply simple_inserts_l.
  assert (Lw : SlidingWindow.l w = xs ++ [xn]) by apply window_inserts_l.
  assert (Sa : size a = to_u32 n)
    by (cbn [size SimpleSet_ops]; unfold SimpleSet.size; now rewrite La).
  assert (Sw : size w = to_u32 n)
    by (cbn [size SlidingWindow_ops]; unfold SlidingWindow.size; now rewrite Lw).
  assert (Ua : lastUpdate a = Ok (xn, [])).
  { cbn [lastUpdate SimpleSet_ops]. unfold SimpleSet.lastUpdate.
    now rewrite La, back_snoc. }
  assert (Uw : lastUpdate w = Ok (xn, [])).
  { cbn [lastUpdate SlidingWindow_ops]. unfold SlidingWindow.lastUpdate.
    now rewrite Lw, back_snoc. }
  repeat split; auto.
  - rewrite Sa. apply to_u32_small. subst n. lia.
  - rewrite Sw. apply to_u32_small. subst n. lia.
  - cbn [run step]. now rewrite Ua, Sa.
  - cbn [run step]. now rewrite Uw, Sw.
Qed.

Lemma after_inserts_witness :
  Z.of_nat (length ([1; 2] ++ [3])) < 2 ^ 32
  /\ size (inserts ([1; 2] ++ [3]) (SimpleSet.create Z)) = 3
  /\ size (inserts ([1; 2] ++ [3]) (SlidingWindow.create Z)) = 3
  /\ lastUpdate (inserts ([1; 2] ++ [3]) (SimpleSet.create Z)) = Ok (3, []).
Proof.
  assert (H : Z.of_nat (length ([1; 2] ++ [3])) < 2 ^ 32) by reflexivity.
  destruct (@after_inserts Z [1; 2] 3) as (_ & _ & Hs & Hu & _).
  destruct (Hs H) as [Ha Hw].
  split; [exact H | split; [exact Ha | split; [exact Hw | exact Hu]]].
Defined.

(** C9 as stated fails: after 2^32 inserts [size()], a [uint32_t], returns
    0 and not the number of elements. *)
Lemma size_counterexample :
  Z.of_nat (length (repeat tt (Z.to_nat (2 ^ 32)))) = 2 ^ 32
  /\ size (inserts (repeat tt (Z.to_nat (2 ^ 32))) (SimpleSet.create unit)) = 0
  /\ size (inserts (repeat tt (Z.to_nat (2 ^ 32))) (SlidingWindow.create unit))
     = 0.
Proof.
  assert (L : Z.of_nat (length (repeat tt (Z.to_nat (2 ^ 32)))) = 2 ^ 32).
  { rewrite repeat_length. apply Z2Nat.id. discriminate. }
  split; [exact L|]. split.
  - cbn [size SimpleSet_ops]. unfold SimpleSet.size.
    rewrite simple_inserts_l. cbn [SimpleSet.l SimpleSet.create app].
    rewrite L. reflexivity.
  - cbn [size SlidingWindow_ops]. unfold SlidingWindow.size.
    rewrite window_inserts_l. cbn [SlidingWindow.l SlidingWindow.create app].
    rewrite L. reflexivity.
Qed.

(** C10.  [lastUpdate()] needs a set that is not empty: on an empty
    [SimpleSet] or [SlidingWindow] it takes [back()] of an empty list and
    has no defined result; when [size()] is at least 1 it returns the
    newest element with an empty list. *)
Theorem lastUpdate_precondition (T : Type) :
  lastUpdate (SimpleSet.create T) = Undefined
  /\ lastUpdate (SlidingWindow.create T) = Undefined
  /\ (forall s : SimpleSet.t T,
        1 <= size s -> exists x, lastUpdate s = Ok (x, [])
                                 /\ back (SimpleSet.l s) = Ok x)
  /\ (forall s : SlidingWindow.t T,
        1 <= size s -> exists x, lastUpdate s = Ok (x, [])
                                 /\ back (SlidingWindow.l s) = Ok x).
Proof.
  split; [reflexivity|]. split; [reflexivity|]. split.
  - intros s Hs. cbn [size lastUpdate SimpleSet_ops] in *.
    unfold SimpleSet.size, SimpleSet.lastUpdate in *.
    destruct (back_defined (size_positive_nonempty Hs)) as (x & E).
    exists x. now rewrite E.
  - intros s Hs. cbn [size lastUpdate SlidingWindow_ops] in *.
    unfold SlidingWindow.size, SlidingWindow.lastUpdate in *.
    destruct (back_defined (size_positive_nonempty Hs)) as (x & E).
    exists x. now rewrite E.
Qed.

Lemma lastUpdate_precondition_witness :
  1 <= size (inserts [7] (SimpleSet.create Z))
  /\ exists x, lastUpdate (inserts [7] (SimpleSet.create Z)) = Ok (x, []).
Proof.
  assert (H : 1 <= size (inserts [7] (SimpleSet.create Z)))
    by (vm_compute; discriminate).
  split; [exact H|].
  destruct (proj1 (proj2 (proj2 (lastUpdate_precondition Z))) _ H) as (x & E & _).
  exists x. exact E.
Defined.

(** ** The recursion bound of the parsers is never reached *)

Lemma in_fuel_bind {A B : Type} (m : outcome A) (k : A -> outcome B) :
  in_fuel m -> (forall a, in_fuel (k a)) -> in_fuel (bind m k).
Proof.
  unfold in_fuel. destruct m; cbn [bind]; auto; discriminate.
Qed.

Lemma in_fuel_stoull (s : cstring) : in_fuel (stoull s).
Proof.
  unfold in_fuel, stoull. destruct (scan_number s) as [neg [|c t]];
    [discriminate|]. destruct (_ >? _); discriminate.
Qed.

Lemma in_fuel_stoll (s : cstring) : in_fuel (stoll s).
Proof.
  unfold in_fuel, stoll. destruct (scan_number s) as [neg [|c t]];
    [discriminate|]. cbv zeta. destruct (_ && _); discriminate.
Qed.

Lemma in_fuel_i128 (z : Z) : in_fuel (i128 z).
Proof.
  unfold in_fuel, i128. destruct (_ && _); discriminate.
Qed.

Lemma substr_length (s : cstring) (pos n : nat) :
  (length (substr s pos n) <= n)%nat.
Proof. unfold substr. rewrite length_firstn. lia. Qed.

Lemma u128_of_string_rec_in_fuel (f : nat) :
  forall s, (length s <= f)%nat -> in_fuel (u128_of_string_rec f s).
Proof.
  induction f as [|f IH]; intros s Hs.
  - destruct s; [discriminate|simpl in Hs; lia].
  - cbn [u128_of_string_rec].
    destruct (negb (len s >? 0)); [discriminate|].
    destruct (Z.leb_spec (len s) E10_UINT64) as [L|L]; [apply in_fuel_stoull|].
    unfold len, E10_UINT64 in *.
    apply in_fuel_bind; [|intros hi; apply in_fuel_bind; [|discriminate]].
    + apply IH. pose proof (substr_length s 0 (Z.to_nat (Z.of_nat (length s) - 19))). lia.
    + apply IH. pose proof (substr_length s (Z.to_nat (Z.of_nat (length s) - 19))
                              (Z.to_nat 19)). lia.
Qed.

Lemma i128_of_string_rec_in_fuel (f : nat) :
  forall s, (length s <= f)%nat -> in_fuel (i128_of_string_rec f s).
Proof.
  induction f as [|f IH]; intros s Hs.
  - destruct s; [discriminate|simpl in Hs; lia].
  - cbn [i128_of_string_rec].
    destruct (negb (len s >? 0)); [discriminate|]. cbv zeta.
    destruct (Z.leb_spec (len s)
                (E10_INT64 + (if is_sign (nth 0 s "000"%char) then 1 else 0)))
      as [L|L]; [apply in_fuel_stoll|].
    assert (18 < len s) by (unfold E10_INT64 in L; destruct (is_sign _); lia).
    unfold len, E10_INT64 in *.
    apply in_fuel_bind; [|intros hi; apply in_fuel_bind].
    + apply IH. pose proof (substr_length s 0 (Z.to_nat (Z.of_nat (length s) - 18))). lia.
    + apply IH. pose proof (substr_length s (Z.to_nat (Z.of_nat (length s) - 18))
                              (Z.to_nat 18)). lia.
    + intros lo. destruct (hi >=? 0);
        (apply in_fuel_bind; [apply in_fuel_i128 | intros; apply in_fuel_i128]).
Qed.

(** Every call of a parser ends: with a value, an assertion failure, an
    exception or an overflow. *)
Lemma parsers_total (s : cstring) :
  in_fuel (u128_of_string s) /\ in_fuel (i128_of_string s)
  /\ in_fuel (i128_from_chars s) /\ in_fuel (u128_from_chars s).
Proof.
  assert (I : forall t, in_fuel (i128_of_string t))
    by (intros t; now apply i128_of_string_rec_in_fuel).
  repeat split.
  - now apply u128_of_string_rec_in_fuel.
  - apply I.
  - unfold i128_from_chars. destruct s as [|c t]; [discriminate|]. cbv zeta.
    destruct (negb _); [discriminate|].
    apply in_fuel_bind; [apply I|discriminate].
  - unfold u128_from_chars. destruct s as [|c t]; [discriminate|]. cbv zeta.
    destruct (negb _); [discriminate|].
    apply in_fuel_bind; [apply I|discriminate].
Qed.

(** * Further properties of the code *)

(** ** [u128_of_string] on any run of digits *)

Lemma u128_of_string_rec_wraps (f : nat) :
  forall ds, (length ds <= f)%nat -> digits ds -> ds <> [] ->
             u128_of_string_rec f ds = Ok (to_u128 (value ds)).
Proof.
  induction f as [|f IH]; intros ds Hf Hd Hne.
  - destruct ds; [contradiction|simpl in Hf; lia].
  - cbn [u128_of_string_rec]. rewrite (len_pos Hne). cbn [negb].
    pose proof (value_bounds Hd) as Hb.
    destruct (Z.leb_spec (len ds) E10_UINT64) as [L|L].
    + assert (10 ^ len ds <= 10 ^ 19)
        by (apply Z.pow_le_mono_r; unfold E10_UINT64 in L; lia).
      rewrite stoull_digits by (auto; unfold UINT64_MAX; lia).
      rewrite to_u128_small by (unfold UINT128_MAX; lia). reflexivity.
    + unfold E10_UINT64, len in L.
      replace (Z.to_nat (len ds - E10_UINT64)) with (length ds - 19)%nat
        by (unfold len, E10_UINT64; lia).
      change (Z.to_nat E10_UINT64) with 19%nat.
      destruct (@split_low ds 19 ltac:(lia)) as (E1 & E2 & L1 & L2 & E3).
      rewrite E1, E2.
      set (a := firstn (length ds - 19) ds) in *.
      set (b := skipn (length ds - 19) ds) in *.
      assert (Hab : digits a /\ digits b)
        by (apply Forall_app; rewrite <- E3; exact Hd).
      destruct Hab as [Ha Hb'].
      assert (Ev : value ds = value a * P10_UINT64 + value b).
      { rewrite E3 at 1. rewrite value_app. unfold len. rewrite L2. reflexivity. }
      rewrite (IH a), (IH b); cbn [bind].
      * rewrite Ev. f_equal. unfold to_u128.
        rewrite <- (Z.add_mod_idemp_l (value a mod 2 ^ 128 * P10_UINT64)) by lia.
        rewrite Z.mul_mod_idemp_l by lia.
        rewrite <- (Z.add_mod_idemp_r _ (value b mod 2 ^ 128)) by lia.
        rewrite Z.mod_mod by lia.
        rewrite Z.add_mod_idemp_r, Z.add_mod_idemp_l by lia. reflexivity.
      * lia.
      * exact Hb'.
      * intros Eb. rewrite Eb in L2. discriminate L2.
      * lia.
      * exact Ha.
      * intros Ea. rewrite Ea in L1. simpl in L1. lia.
Qed.

(** X1.  On every run of at least one digit [u128_of_string] returns the
    value of the run reduced modulo 2^128: leading zeros are accepted, and a
    value that does not fit is not reported but wraps around. *)
Theorem u128_of_string_wraps (ds : cstring) :
  digits ds -> ds <> [] -> u128_of_string ds = Ok (value ds mod 2 ^ 128).
Proof.
  intros Hd Hne. unfold u128_of_string.
  now rewrite u128_of_string_rec_wraps.
Qed.

Lemma u128_of_string_wraps_witness :
  u128_of_string (lit "340282366920938463463374607431768211457")
  = Ok (value (lit "340282366920938463463374607431768211457") mod 2 ^ 128).
Proof.
  apply u128_of_string_wraps; [repeat constructor|discriminate].
Defined.

(** ** [i128_of_string] on any sign and run of digits *)

Lemma top_chunk_short (ds : cstring) :
  (length ds <= 18)%nat -> top_chunk ds = ds.
Proof.
  intros Hl. unfold top_chunk. destruct ds as [|c t]; [reflexivity|].
  apply firstn_all2. simpl length in *.
  rewrite Nat.mod_small by lia. lia.
Qed.

Lemma parsed_short (sg : sign) (ds : cstring) :
  (length ds <= 18)%nat -> parsed sg ds = signed sg (value ds).
Proof.
  intros Hl. destruct sg; try reflexivity. cbn [parsed signed].
  rewrite (@top_chunk_short ds Hl).
  destruct (Z.eqb_spec (value ds) 0) as [E|E]; [rewrite E|]; reflexivity.
Qed.

Lemma i128_of_string_rec_parsed (f : nat) :
  forall (sg : sign) (ds : cstring),
    (length (sign_chars sg ++ ds) <= f)%nat -> digits ds -> ds <> [] ->
    i128_of_string_rec f (sign_chars sg ++ ds) = i128 (parsed sg ds).
Proof.
  induction f as [|f IH]; intros sg ds Hf Hd Hne.
  - rewrite length_app in Hf. destruct ds; [contradiction|simpl in Hf; lia].
  - cbn [i128_of_string_rec].
    assert (Hs : sign_chars sg ++ ds <> [])
      by (destruct sg, ds; try discriminate; contradiction).
    rewrite (len_pos Hs). cbn [negb]. cbv zeta.
    rewrite (first_is_sign sg Hd Hne), len_app.
    pose proof (value_bounds Hd) as Hb.
    destruct (Z.leb_spec (len (sign_chars sg) + len ds) (18 + len (sign_chars sg)))
      as [L|L].
    + assert (Hl : (length ds <= 18)%nat) by (unfold len in L; lia).
      assert (10 ^ len ds <= 10 ^ 18) by (apply Z.pow_le_mono_r; lia).
      rewrite (@parsed_short sg ds Hl).
      rewrite stoll_signed, i128_ok; auto;
        unfold INT64_MIN, INT64_MAX, INT128_MIN, INT128_MAX;
        destruct sg; cbn [signed]; lia.
    + assert (Hl : (18 < length ds)%nat) by (unfold len in L; lia).
      destruct (@split_signed sg ds Hl) as (E1 & E2). rewrite <- len_app.
      rewrite E1, E2.
      destruct (@split_low ds 18 ltac:(lia)) as (_ & _ & L1 & L2 & E3).
      pose proof (@top_chunk_firstn ds Hl) as Etop.
      set (a := firstn (length ds - 18) ds) in *.
      set (b := skipn (length ds - 18) ds) in *.
      assert (Hab : digits a /\ digits b)
        by (apply Forall_app; rewrite <- E3; exact Hd).
      destruct Hab as [Ha Hb'].
      pose proof (value_bounds Ha) as Ba. pose proof (value_bounds Hb') as Bb.
      assert (Ev : value ds = value a * P10_INT64 + value b).
      { rewrite E3 at 1. rewrite value_app. unfold len. rewrite L2. reflexivity. }
      unfold len in Bb. rewrite L2 in Bb.
      change (10 ^ Z.of_nat 18) with 1000000000000000000 in Bb.
      assert (Hane : a <> []) by (intros Ea; rewrite Ea in L1; simpl in L1; lia).
      assert (Hbne : b <> []) by (intros Eb; rewrite Eb in L2; discriminate L2).
      assert (Hfa : (length (sign_chars sg ++ a) <= f)%nat).
      { rewrite length_app in *. rewrite L1. lia. }
      assert (Hfb : (length (sign_chars NoSign ++ b) <= f)%nat).
      { rewrite length_app in *. cbn [sign_chars length]. rewrite L2. lia. }
      pose proof (@value_firstn_le ((length a - 1) mod 18 + 1) a Ha) as Hta.
      fold (top_chunk a) in Hta. rewrite Etop in Hta.
      rewrite (IH sg a), (IH NoSign b) by assumption.
      assert (Epa : parsed sg a
                    = match sg with
                      | Minus => if value (top_chunk ds) =? 0
                                 then value a else - value a
                      | _ => value a
                      end)
        by (destruct sg; cbn [parsed]; rewrite ?Etop; reflexivity).
      rewrite Epa. change (parsed NoSign b) with (value b).
      rewrite (@i128_ok (value b))
        by (unfold INT128_MIN, INT128_MAX; lia).
      clear Epa E1 E2 E3 IH.
      destruct sg; cbn [parsed]; rewrite Ev; unfold P10_INT64;
        [| |destruct (Z.eqb_spec (value (top_chunk ds)) 0)];
        unfold i128, INT128_MIN, INT128_MAX;
        repeat match goal with
               | |- context [Z.leb ?x ?y] => destruct (Z.leb_spec x y)
               | |- context [Z.geb ?x ?y] => destruct (Z.geb_spec x y)
               | _ => progress cbn [andb bind]
               end;
        try reflexivity; try lia; f_equal; lia.
Qed.

(** X2.  On an optional sign followed by at least one digit
    [i128_of_string] never throws: it returns the value, negated after a
    minus sign unless the chunk parsed first is zero, when that number
    fits [int128_t], and overflows (undefined) when it does not. *)
Theorem i128_of_string_on_signed_run (sg : sign) (ds : cstring) :
  digits ds -> ds <> [] ->
  (INT128_MIN <= parsed sg ds <= INT128_MAX ->
   i128_of_string (sign_chars sg ++ ds) = Ok (parsed sg ds))
  /\ (~ INT128_MIN <= parsed sg ds <= INT128_MAX ->
      i128_of_string (sign_chars sg ++ ds) = Undefined).
Proof.
  intros Hd Hne. unfold i128_of_string.
  rewrite i128_of_string_rec_parsed by auto. split; intros H.
  - now apply i128_ok.
  - unfold i128.
    destruct (Z.leb_spec INT128_MIN (parsed sg ds)),
      (Z.leb_spec (parsed sg ds) INT128_MAX); try reflexivity; lia.
Qed.

Lemma i128_of_string_on_signed_run_witness :
  i128_of_string (lit "+00000000000000000000042") = Ok 42
  /\ i128_of_string (lit "-170141183460469231731687303715884105729")
     = Undefined.
Proof.
  split.
  - apply (proj1 (@i128_of_string_on_signed_run Plus
                    (lit "00000000000000000000042")
                    ltac:(repeat constructor) ltac:(discriminate))).
    vm_compute. split; discriminate.
  - apply (proj2 (@i128_of_string_on_signed_run Minus
                    (lit "170141183460469231731687303715884105729")
                    ltac:(repeat constructor) ltac:(discriminate))).
    vm_compute. intros [H _]. now apply H.
Defined.

(** X3.  A minus sign is lost when the chunk parsed first is zero: the
    digits are then read as a positive number. *)
Theorem minus_sign_lost (ds : cstring) :
  digits ds -> ds <> [] -> value (top_chunk ds) = 0 ->
  value ds <= INT128_MAX ->
  i128_of_string ("-"%char :: ds) = Ok (value ds).
Proof.
  intros Hd Hne Ht Hv. unfold i128_of_string.
  change ("-"%char :: ds) with (sign_chars Minus ++ ds).
  rewrite i128_of_string_rec_parsed by auto. cbn [parsed].
  rewrite Ht. cbn. apply i128_ok.
  pose proof (value_bounds Hd). unfold INT128_MIN. lia.
Qed.

Lemma minus_sign_lost_witness :
  i128_of_string (lit "-000000000000000000000000000000000000123456")
  = Ok 123456.
Proof.
  apply (@minus_sign_lost (lit "000000000000000000000000000000000000123456")).
  - repeat constructor.
  - discriminate.
  - reflexivity.
  - vm_compute. discriminate.
Defined.

(** ** The assertion of the parsers *)

Lemma bind_no_assert {A B : Type} (m : outcome A) (k : A -> outcome B) :
  m <> AssertFail -> (forall a, k a <> AssertFail) -> bind m k <> AssertFail.
Proof.
  destruct m; cbn [bind]; auto; discriminate.
Qed.

Lemma stoull_no_assert (s : cstring) : stoull s <> AssertFail.
Proof.
  unfold stoull. destruct (scan_number s) as [neg [|c t]];
    [discriminate|]. destruct (_ >? _); discriminate.
Qed.

Lemma stoll_no_assert (s : cstring) : stoll s <> AssertFail.
Proof.
  unfold stoll. destruct (scan_number s) as [neg [|c t]];
    [discriminate|]. cbv zeta. destruct (_ && _); discriminate.
Qed.

Lemma i128_no_assert (z : Z) : i128 z <> AssertFail.
Proof.
  unfold i128. destruct (_ && _); discriminate.
Qed.

Lemma nonempty_of_length (s : cstring) : (0 < length s)%nat -> s <> [].
Proof. destruct s; [simpl; lia|discriminate]. Qed.

Lemma u128_of_string_rec_no_assert (f : nat) :
  forall s, (length s <= f)%nat -> s <> [] ->
            u128_of_string_rec f s <> AssertFail.
Proof.
  induction f as [|f IH]; intros s Hf Hne.
  - destruct s; [contradiction|simpl in Hf; lia].
  - cbn [u128_of_string_rec]. rewrite (len_pos Hne). cbn [negb].
    destruct (Z.leb_spec (len s) E10_UINT64) as [L|L];
      [apply stoull_no_assert|].
    unfold E10_UINT64, len in L.
    replace (Z.to_nat (len s - E10_UINT64)) with (length s - 19)%nat
      by (unfold len, E10_UINT64; lia).
    change (Z.to_nat E10_UINT64) with 19%nat.
    destruct (@split_low s 19 ltac:(lia)) as (E1 & E2 & L1 & L2 & _).
    rewrite E1, E2.
    apply bind_no_assert; [|intros hi; apply bind_no_assert; [|discriminate]].
    + apply IH; [lia | apply nonempty_of_length; lia].
    + apply IH; [lia | apply nonempty_of_length; lia].
Qed.

Lemma i128_of_string_rec_no_assert (f : nat) :
  forall s, (length s <= f)%nat -> s <> [] ->
            i128_of_string_rec f s <> AssertFail.
Proof.
  induction f as [|f IH]; intros s Hf Hne.
  - destruct s; [contradiction|simpl in Hf; lia].
  - cbn [i128_of_string_rec]. rewrite (len_pos Hne). cbn [negb]. cbv zeta.
    destruct (Z.leb_spec (len s)
                (E10_INT64 + (if is_sign (nth 0 s "000"%char) then 1 else 0)))
      as [L|L]; [apply stoll_no_assert|].
    assert (Hl : (18 < length s)%nat)
      by (unfold E10_INT64, len in L; destruct (is_sign _); lia).
    replace (Z.to_nat (len s - E10_INT64)) with (length s - 18)%nat
      by (unfold len, E10_INT64; lia).
    change (Z.to_nat E10_INT64) with 18%nat.
    destruct (@split_low s 18 ltac:(lia)) as (E1 & E2 & L1 & L2 & _).
    rewrite E1, E2.
    apply bind_no_assert; [|intros hi; apply bind_no_assert].
    + apply IH; [lia | apply nonempty_of_length; lia].
    + apply IH; [lia | apply nonempty_of_length; lia].
    + intros lo. destruct (hi >=? 0);
        (apply bind_no_assert; [apply i128_no_assert | intros; apply i128_no_assert]).
Qed.

Lemma i128_of_string_no_assert (s : cstring) :
  s <> [] -> i128_of_string s <> AssertFail.
Proof. intros. now apply i128_of_string_rec_no_assert. Qed.

(** X4.  The assertion of [u128_of_string] and of [i128_of_string] fails
    on the empty string and on no other: the strings the functions pass to
    themselves are never empty. *)
Theorem parsers_assert_only_on_empty (s : cstring) :
  (u128_of_string s = AssertFail <-> s = [])
  /\ (i128_of_string s = AssertFail <-> s = []).
Proof.
  split; split.
  - intros H. destruct s as [|c t]; [reflexivity|]. exfalso.
    revert H. apply u128_of_string_rec_no_assert; [lia|discriminate].
  - intros ->. reflexivity.
  - intros H. destruct s as [|c t]; [reflexivity|]. exfalso.
    revert H. apply i128_of_string_no_assert. discriminate.
  - intros ->. reflexivity.
Qed.

Lemma parsers_assert_only_on_empty_witness :
  u128_of_string (lit "") = AssertFail /\ i128_of_string (lit "") = AssertFail.
Proof.
  split.
  - exact (proj2 (proj1 (parsers_assert_only_on_empty (lit ""))) eq_refl).
  - exact (proj2 (proj2 (parsers_assert_only_on_empty (lit ""))) eq_refl).
Defined.

(** ** What the formatters write *)

Lemma decimal_length_bound (n : Z) (ds : cstring) (k : nat) :
  0 < n < 10 ^ Z.of_nat k -> decimal n ds -> (1 <= length ds <= k)%nat.
Proof.
  intros Hn [D1 D2 D3 D4].
  pose proof (value_leading D1 (D4 ltac:(lia))) as Hl. rewrite D2 in Hl.
  split; [destruct ds; [contradiction|simpl; lia]|].
  assert (len ds - 1 < Z.of_nat k); [|unfold len in *; lia].
  apply (Z.pow_lt_mono_r_iff 10); lia.
Qed.

(** X5.  [string_of_u128] writes between 1 and 39 characters, all decimal
    digits, whose value is the argument, and the first of them is not 0
    unless the argument is 0. *)
Theorem string_of_u128_shape (u : Z) :
  0 <= u <= UINT128_MAX ->
  exists s, string_of_u128 u = Ok s
            /\ digits s /\ value s = u
            /\ (1 <= length s <= 39)%nat
            /\ (u <> 0 -> leading s).
Proof.
  intros Hu. destruct (Z.eq_dec u 0) as [->|Hnz].
  - exists (lit "0"). split; [reflexivity|]. split; [repeat constructor|].
    split; [reflexivity|]. split; [simpl; lia|].
    intros H. now contradiction H.
  - destruct (string_of_u128_decimal Hu) as (s & E & D).
    exists s. pose proof D as [D1 D2 D3 D4]. repeat split; auto.
    + apply (@decimal_length_bound u s 39 ltac:(unfold UINT128_MAX in Hu; lia) D).
    + apply (@decimal_length_bound u s 39 ltac:(unfold UINT128_MAX in Hu; lia) D).
    + intros _. apply D4. lia.
Qed.

Lemma string_of_u128_shape_witness :
  exists s, string_of_u128 UINT128_MAX = Ok s /\ (1 <= length s <= 39)%nat.
Proof.
  destruct (@string_of_u128_shape UINT128_MAX ltac:(vm_compute; split; discriminate))
    as (s & E & _ & _ & L & _).
  exists s. split; [exact E | exact L].
Defined.

(** X6.  [string_of_i128] writes a minus sign exactly for a negative
    argument, never a plus sign, and then between 1 and 39 digits whose
    value is the magnitude, the first not 0 unless the argument is 0: at
    most 40 characters. *)
Theorem string_of_i128_shape (i : Z) :
  INT128_MIN <= i <= INT128_MAX ->
  exists ds, string_of_i128 i = Ok (sign_of i ++ ds)
             /\ digits ds /\ value ds = Z.abs i
             /\ (1 <= length ds <= 39)%nat
             /\ (i <> 0 -> leading ds).
Proof.
  intros Hi. destruct (Z.eq_dec i 0) as [->|Hnz].
  - exists (lit "0"). split; [reflexivity|]. split; [repeat constructor|].
    split; [reflexivity|]. split; [simpl; lia|].
    intros H. now contradiction H.
  - destruct (string_of_i128_sdecimal Hi) as (s & E & ds & Es & D).
    exists ds. subst s. pose proof D as [D1 D2 D3 D4]. repeat split; auto.
    + apply (@decimal_length_bound (Z.abs i) ds 39
               ltac:(unfold INT128_MIN, INT128_MAX in Hi; lia) D).
    + apply (@decimal_length_bound (Z.abs i) ds 39
               ltac:(unfold INT128_MIN, INT128_MAX in Hi; lia) D).
    + intros _. apply D4. lia.
Qed.

Lemma string_of_i128_shape_witness :
  exists ds, string_of_i128 INT128_MIN = Ok ("-"%char :: ds)
             /\ (1 <= length ds <= 39)%nat.
Proof.
  destruct (@string_of_i128_shape INT128_MIN ltac:(vm_compute; split; discriminate))
    as (ds & E & _ & _ & L & _).
  exists ds. split; [exact E | exact L].
Defined.

(** X7.  On the values both types hold, 0 to 2^127-1, the signed and the
    unsigned formatter write the same string, although they cut the value
    in chunks of different widths. *)
Theorem formatters_agree (u : Z) :
  0 <= u <= INT128_MAX -> string_of_i128 u = string_of_u128 u.
Proof.
  intros Hu. destruct (Z.eq_dec u 0) as [->|Hnz]; [reflexivity|].
  destruct (@string_of_i128_sdecimal u
              ltac:(unfold INT128_MIN, INT128_MAX in *; lia))
    as (s & E & ds & Es & D).
  destruct (@string_of_u128_decimal u
              ltac:(unfold UINT128_MAX, INT128_MAX in *; lia))
    as (s' & E' & D').
  rewrite E, E'. f_equal. subst s. unfold sign_of.
  destruct (Z.ltb_spec u 0); [lia|]. cbn [app].
  replace (Z.abs u) with u in D by lia.
  apply (@decimal_unique u); auto. lia.
Qed.

Lemma formatters_agree_witness :
  string_of_i128 (10 ^ 30) = string_of_u128 (10 ^ 30).
Proof.
  apply formatters_agree. vm_compute. split; discriminate.
Defined.

(** X8.  The string of a negative value is a minus sign in front of the
    string of its magnitude. *)
Theorem string_of_i128_negative (i : Z) :
  0 < i <= INT128_MAX ->
  string_of_i128 (- i) = (s <- string_of_i128 i ;; Ok ("-"%char :: s)).
Proof.
  intros Hi.
  destruct (@string_of_i128_sdecimal i
              ltac:(unfold INT128_MIN, INT128_MAX in *; lia))
    as (s & E & ds & Es & D).
  destruct (@string_of_i128_sdecimal (- i)
              ltac:(unfold INT128_MIN, INT128_MAX in *; lia))
    as (s' & E' & ds' & Es' & D').
  rewrite E, E'. cbn [bind]. f_equal. subst s s'. unfold sign_of.
  destruct (Z.ltb_spec i 0); [lia|]. destruct (Z.ltb_spec (- i) 0); [|lia].
  cbn [app]. f_equal.
  replace (Z.abs (- i)) with i in D' by lia.
  replace (Z.abs i) with i in D by lia.
  apply (@decimal_unique i); auto. lia.
Qed.

Lemma string_of_i128_negative_witness :
  string_of_i128 (- (2 ^ 100))
  = (s <- string_of_i128 (2 ^ 100) ;; Ok ("-"%char :: s)).
Proof.
  apply string_of_i128_negative. vm_compute. split; [reflexivity|discriminate].
Defined.

(** ** Formatting, then consuming *)

Lemma sign_of_chars (i : Z) :
  sign_of i = sign_chars (if i <? 0 then Minus else NoSign).
Proof. unfold sign_of. destruct (i <? 0); reflexivity. Qed.

(** X9.  [i128_from_chars] reads back what [string_of_i128] wrote, also
    when other characters follow in the range, provided the first of them
    is not a digit: it returns the length of the written string and the
    value. *)
Theorem i128_format_then_consume (i : Z) (rest : cstring) :
  INT128_MIN <= i <= INT128_MAX -> stops rest ->
  exists s, string_of_i128 i = Ok s
            /\ i128_from_chars (s ++ rest) = Ok (length s, i).
Proof.
  intros Hi Hr.
  destruct (string_of_i128_sdecimal Hi) as (s & E & ds & Es & [D1 D2 D3 D4]).
  exists s. split; [exact E|]. subst s. rewrite sign_of_chars, <- app_assoc.
  rewrite i128_from_chars_run by assumption.
  rewrite i128_of_string_signed; auto.
  - cbn [bind]. do 2 f_equal. destruct (Z.ltb_spec i 0); cbn [signed]; lia.
  - destruct (Z.ltb_spec i 0); cbn [signed]; lia.
  - destruct (Z.ltb_spec i 0); [|discriminate]. intros _ Hz.
    pose proof (top_chunk_leading D1 (D4 ltac:(lia))). lia.
Qed.

Lemma i128_format_then_consume_witness :
  exists s, string_of_i128 (- 10 ^ 30) = Ok s
            /\ i128_from_chars (s ++ lit ",7") = Ok (length s, - 10 ^ 30).
Proof.
  apply i128_format_then_consume; [vm_compute; split; discriminate | reflexivity].
Defined.

(** X10.  [u128_from_chars] reads back what [string_of_u128] wrote for
    the values up to 2^127-1, also when a character that is not a digit
    follows. *)
Theorem u128_format_then_consume (u : Z) (rest : cstring) :
  0 <= u <= INT128_MAX -> stops rest ->
  exists s, string_of_u128 u = Ok s
            /\ u128_from_chars (s ++ rest) = Ok (length s, u).
Proof.
  intros Hu Hr.
  destruct (@string_of_u128_decimal u
              ltac:(unfold UINT128_MAX, INT128_MAX in *; lia))
    as (s & E & [D1 D2 D3 _]).
  exists s. split; [exact E|].
  rewrite u128_from_chars_run by assumption. unfold i128_of_string.
  pose proof (@i128_of_string_rec_parsed (length s) NoSign s
                (Nat.le_refl _) D1 D3) as P.
  cbn [sign_chars app parsed] in P. rewrite P, D2.
  rewrite i128_ok by (unfold INT128_MIN; lia). cbn [bind].
  rewrite to_u128_small by (unfold UINT128_MAX, INT128_MAX in *; lia).
  reflexivity.
Qed.

Lemma u128_format_then_consume_witness :
  exists s, string_of_u128 (2 ^ 127 - 1) = Ok s
            /\ u128_from_chars (s ++ lit " ") = Ok (length s, 2 ^ 127 - 1).
Proof.
  apply u128_format_then_consume; [vm_compute; split; discriminate | reflexivity].
Defined.

(** X11.  [u128_from_chars] cannot read back the upper half of
    [uint128_t]: from 2^127 on, the string [string_of_u128] wrote overflows
    the signed parser it goes through. *)
Theorem u128_upper_half_overflows (u : Z) (rest : cstring) :
  INT128_MAX < u <= UINT128_MAX -> stops rest ->
  exists s, string_of_u128 u = Ok s
            /\ u128_from_chars (s ++ rest) = Undefined.
Proof.
  intros Hu Hr.
  destruct (@string_of_u128_decimal u
              ltac:(unfold UINT128_MAX, INT128_MAX in *; lia))
    as (s & E & [D1 D2 D3 _]).
  exists s. split; [exact E|].
  rewrite u128_from_chars_run by assumption. unfold i128_of_string.
  pose proof (@i128_of_string_rec_parsed (length s) NoSign s
                (Nat.le_refl _) D1 D3) as P.
  cbn [sign_chars app parsed] in P. rewrite P, D2. unfold i128.
  destruct (Z.leb_spec INT128_MIN u), (Z.leb_spec u INT128_MAX);
    try reflexivity; lia.
Qed.

Lemma u128_upper_half_overflows_witness :
  exists s, string_of_u128 (2 ^ 127) = Ok s
            /\ u128_from_chars (s ++ lit "") = Undefined.
Proof.
  apply u128_upper_half_overflows;
    [vm_compute; split; [reflexivity|discriminate] | reflexivity].
Defined.

(** ** What a returned count means *)

Lemma take_digits_digits (r : cstring) : digits (take_digits r).
Proof.
  induction r as [|c t IH]; [constructor|]. cbn [take_digits].
  destruct (is_digit c) eqn:E; constructor; assumption.
Qed.

Lemma take_digits_split (r : cstring) :
  exists rest, r = take_digits r ++ rest /\ stops rest.
Proof.
  induction r as [|c t (rest & E & Hr)].
  - exists []. split; [reflexivity|exact I].
  - cbn [take_digits]. destruct (is_digit c) eqn:Ec.
    + exists rest. split; [cbn [app]; now rewrite <- E | exact Hr].
    + exists (c :: t). split; [reflexivity|exact Ec].
Qed.

Lemma sign_char_cases (c : ascii) :
  is_sign c = true ->
  is_digit c = false
  /\ ([c] = sign_chars Minus \/ [c] = sign_chars Plus).
Proof.
  unfold is_sign. intros H. apply orb_true_iff in H as [H|H];
    apply Ascii.eqb_eq in H; subst; split; auto.
Qed.

Lemma i128_from_chars_lone_sign (c : ascii) (rest : cstring) :
  is_sign c = true -> stops rest ->
  i128_from_chars (c :: rest) = Throw invalid_argument.
Proof.
  intros Hc Hr. unfold i128_from_chars. rewrite Hc. cbn [skipn].
  replace (scan_digits rest 1) with 1%nat
    by (destruct rest; [reflexivity|simpl in Hr; cbn [scan_digits]; now rewrite Hr]).
  cbn [Nat.ltb Nat.leb negb firstn].
  unfold i128_of_string. cbn [length i128_of_string_rec].
  change (len [c] >? 0) with true. cbn [negb nth]. rewrite Hc.
  change (len [c] <=? E10_INT64 + 1) with true.
  now rewrite stoll_no_digit.
Qed.

Lemma from_chars_no_digit (c : ascii) (t : cstring) :
  is_digit c = false ->
  u128_from_chars (c :: t) = AssertFail
  /\ (is_sign c = false -> i128_from_chars (c :: t) = AssertFail).
Proof.
  intros Hd. split.
  - unfold u128_from_chars. cbv zeta. cbn [skipn scan_digits]. now rewrite Hd.
  - intros Hs. unfold i128_from_chars. rewrite Hs. cbn [skipn scan_digits].
    now rewrite Hd.
Qed.

Lemma i128_from_chars_parsed (sg : sign) (ds rest : cstring) :
  digits ds -> ds <> [] -> stops rest ->
  i128_from_chars (sign_chars sg ++ ds ++ rest)
  = (res <- i128 (parsed sg ds) ;; Ok (length (sign_chars sg ++ ds), res)).
Proof.
  intros Hd Hne Hr. rewrite i128_from_chars_run by assumption.
  unfold i128_of_string. now rewrite i128_of_string_rec_parsed.
Qed.

Lemma i128_Ok_inv (z v : Z) :
  i128 z = Ok v -> v = z /\ INT128_MIN <= z <= INT128_MAX.
Proof.
  unfold i128.
  destruct (Z.leb_spec INT128_MIN z) as [L1|L1],
    (Z.leb_spec z INT128_MAX) as [L2|L2];
    cbn [andb]; intros E; try discriminate E.
  injection E as <-. lia.
Qed.

(** X12.  Whenever [i128_from_chars] returns, the range starts with an
    optional sign and a run of at least one digit that the range does not
    continue, the count is the length of sign and run, and the value is
    what [i128_of_string] makes of them, inside [int128_t]. *)
Theorem i128_from_chars_sound (range : cstring) (n : nat) (v : Z) :
  i128_from_chars range = Ok (n, v) ->
  exists sg ds rest,
    range = sign_chars sg ++ ds ++ rest
    /\ digits ds /\ ds <> [] /\ stops rest
    /\ n = length (sign_chars sg ++ ds)
    /\ v = parsed sg ds
    /\ INT128_MIN <= v <= INT128_MAX.
Proof.
  intros H. destruct range as [|c t]; [discriminate H|].
  assert (Fin : forall sg ds rest,
             c :: t = sign_chars sg ++ ds ++ rest ->
             digits ds -> ds <> [] -> stops rest ->
             exists sg ds rest,
               c :: t = sign_chars sg ++ ds ++ rest
               /\ digits ds /\ ds <> [] /\ stops rest
               /\ n = length (sign_chars sg ++ ds)
               /\ v = parsed sg ds
               /\ INT128_MIN <= v <= INT128_MAX).
  { intros sg ds rest E Hd Hne Hr. rewrite E in H.
    rewrite i128_from_chars_parsed in H by assumption.
    destruct (i128 (parsed sg ds)) as [w| | | |] eqn:Ei; try discriminate H.
    cbn [bind] in H. injection H as <- <-.
    apply i128_Ok_inv in Ei as [-> Hrange].
    exists sg, ds, rest. repeat split; auto; lia. }
  destruct (take_digits_split t) as (rest & Et & Hr).
  destruct (is_sign c) eqn:Hs.
  - destruct (sign_char_cases c Hs) as (_ & Hc).
    destruct (take_digits t) as [|d ds'] eqn:Etd.
    + cbn [app] in Et. subst t.
      rewrite i128_from_chars_lone_sign in H by assumption. discriminate H.
    + pose proof (take_digits_digits t) as Hd. rewrite Etd in Hd.
      destruct Hc as [Hc|Hc].
      * apply (Fin Minus (d :: ds') rest); auto; [|discriminate].
        rewrite <- Hc. cbn [app]. now rewrite Et at 1.
      * apply (Fin Plus (d :: ds') rest); auto; [|discriminate].
        rewrite <- Hc. cbn [app]. now rewrite Et at 1.
  - destruct (is_digit c) eqn:Hd.
    + apply (Fin NoSign (c :: take_digits t) rest); auto.
      * cbn [sign_chars app]. now rewrite Et at 1.
      * constructor; [exact Hd | apply take_digits_digits].
      * discriminate.
    + rewrite (proj2 (from_chars_no_digit c t Hd) Hs) in H. discriminate H.
Qed.

Lemma i128_from_chars_sound_witness :
  exists sg ds rest,
    lit "-12;" = sign_chars sg ++ ds ++ rest
    /\ digits ds /\ ds <> [] /\ stops rest
    /\ 3%nat = length (sign_chars sg ++ ds)
    /\ -12 = parsed sg ds
    /\ INT128_MIN <= -12 <= INT128_MAX.
Proof.
  apply (@i128_from_chars_sound (lit "-12;") 3 (-12)). reflexivity.
Defined.

(** X13.  Whenever [u128_from_chars] returns, it has consumed exactly the
    digits the range starts with, at least one, and the value is the value
    of that run, which is below 2^127. *)
Theorem u128_from_chars_sound (range : cstring) (n : nat) (v : Z) :
  u128_from_chars range = Ok (n, v) ->
  take_digits range <> []
  /\ n = length (take_digits range)
  /\ firstn n range = take_digits range
  /\ v = value (take_digits range)
  /\ 0 <= v <= INT128_MAX.
Proof.
  intros H. destruct range as [|c t]; [discriminate H|].
  destruct (is_digit c) eqn:Hd.
  - destruct (take_digits_split (c :: t)) as (rest & E & Hr).
    pose proof (take_digits_digits (c :: t)) as Hds.
    assert (Hne : take_digits (c :: t) <> [])
      by (cbn [take_digits]; rewrite Hd; discriminate).
    set (ds := take_digits (c :: t)) in *.
    rewrite E in H. rewrite u128_from_chars_run in H by assumption.
    unfold i128_of_string in H.
    pose proof (@i128_of_string_rec_parsed (length ds) NoSign ds
                  (Nat.le_refl _) Hds Hne) as P.
    cbn [sign_chars app parsed] in P. rewrite P in H.
    destruct (i128 (value ds)) as [w| | | |] eqn:Ei; try discriminate H.
    cbn [bind] in H. injection H as <- <-.
    apply i128_Ok_inv in Ei as [-> Hrange].
    pose proof (value_bounds Hds) as Hb.
    rewrite to_u128_small by (unfold UINT128_MAX, INT128_MAX in *; lia).
    repeat split; auto; try lia.
    rewrite E at 1. rewrite firstn_app, firstn_all, Nat.sub_diag.
    cbn [firstn]. apply app_nil_r.
  - rewrite (proj1 (from_chars_no_digit c t Hd)) in H. discriminate H.
Qed.

Lemma u128_from_chars_sound_witness :
  take_digits (lit "0042x7") <> []
  /\ 4%nat = length (take_digits (lit "0042x7"))
  /\ firstn 4 (lit "0042x7") = take_digits (lit "0042x7")
  /\ 42 = value (take_digits (lit "0042x7"))
  /\ 0 <= 42 <= INT128_MAX.
Proof.
  apply (@u128_from_chars_sound (lit "0042x7") 4 42). reflexivity.
Defined.

Lemma from_chars_run_no_assert (sg : sign) (ds rest : cstring) :
  digits ds -> ds <> [] -> stops rest ->
  i128_from_chars (sign_chars sg ++ ds ++ rest) <> AssertFail
  /\ u128_from_chars (ds ++ rest) <> AssertFail.
Proof.
  intros Hd Hne Hr. split.
  - rewrite i128_from_chars_run by assumption.
    apply bind_no_assert; [|discriminate].
    apply i128_of_string_no_assert. destruct sg, ds; try discriminate.
    contradiction.
  - rewrite u128_from_chars_run by assumption.
    apply bind_no_assert; [|discriminate].
    now apply i128_of_string_no_assert.
Qed.

(** X14.  The assertions of the incremental parsers: [u128_from_chars]
    aborts exactly when the range does not start with a digit, so on every
    range that starts with a sign; [i128_from_chars] aborts exactly when the
    range is empty or starts with a character that is neither a sign nor a
    digit. *)
Theorem from_chars_assertions (range : cstring) :
  (u128_from_chars range = AssertFail <-> take_digits range = [])
  /\ (i128_from_chars range = AssertFail <->
      match range with
      | [] => True
      | c :: _ => is_sign c = false /\ is_digit c = false
      end).
Proof.
  destruct range as [|c t].
  - split; split; intros; reflexivity || exact I.
  - destruct (take_digits_split t) as (rest & Et & Hr).
    pose proof (take_digits_digits t) as Hdt.
    destruct (is_digit c) eqn:Hd.
    + assert (Hs : is_sign c = false) by now apply digit_not_sign.
      assert (Hds : digits (c :: take_digits t)) by now constructor.
      destruct (@from_chars_run_no_assert NoSign (c :: take_digits t) rest
                  Hds ltac:(discriminate) Hr) as [N1 N2].
      cbn [sign_chars app] in N1, N2. rewrite <- Et in N1, N2.
      split; split; intros H.
      * contradiction.
      * cbn [take_digits] in H. rewrite Hd in H. discriminate H.
      * contradiction.
      * destruct H as [_ H]. discriminate H.
    + destruct (from_chars_no_digit c t Hd) as [A1 A2].
      split; split; intros H.
      * cbn [take_digits]. now rewrite Hd.
      * exact A1.
      * split; [|reflexivity]. destruct (is_sign c) eqn:Hs; [|reflexivity].
        exfalso. destruct (sign_char_cases c Hs) as (_ & Hc).
        destruct (take_digits t) as [|d ds'] eqn:Etd.
        -- cbn [app] in Et. subst t.
           rewrite i128_from_chars_lone_sign in H by assumption. discriminate H.
        -- revert H. rewrite Et.
           change (c :: (d :: ds') ++ rest) with ([c] ++ (d :: ds') ++ rest).
           destruct Hc as [-> | ->];
             apply from_chars_run_no_assert; auto; discriminate.
      * apply A2. apply H.
Qed.

Lemma from_chars_assertions_witness :
  u128_from_chars (lit "-5") = AssertFail
  /\ i128_from_chars (lit "x5") = AssertFail.
Proof.
  split.
  - exact (proj2 (proj1 (from_chars_assertions (lit "-5"))) eq_refl).
  - exact (proj2 (proj2 (from_chars_assertions (lit "x5")))
             (conj eq_refl eq_refl)).
Defined.

(** ** More on Bytes *)

Lemma firstn_plus {A : Type} (n m : nat) :
  forall l : list A, firstn (n + m) l = firstn n l ++ firstn m (skipn n l).
Proof.
  induction n as [|n IH]; intros l; [reflexivity|].
  destruct l as [|a l]; cbn [Nat.add firstn skipn app].
  - now rewrite firstn_nil.
  - now rewrite IH.
Qed.

Lemma skipn_plus {A : Type} (n m : nat) :
  forall l : list A, skipn (n + m) l = skipn m (skipn n l).
Proof.
  induction n as [|n IH]; intros l; [reflexivity|].
  destruct l as [|a l]; cbn [Nat.add skipn]; [now rewrite skipn_nil|apply IH].
Qed.

(** X15.  A view over the storage of a buffer made from the string [s]
    gives the substring of [s] at the offset and of the size of the view,
    whenever that substring lies inside [s]. *)
Theorem view_of_string_is_substr (s : cstring) (size_ offset_ : nat) :
  (offset_ + size_ <= length s)%nat ->
  (v <- BytesM.view (BytesM.buffer (BytesM.of_string s)) size_ offset_ ;;
   BytesM.toString v) = Ok (substr s offset_ size_).
Proof.
  intros H. unfold BytesM.view. cbn [bind].
  rewrite toString_in_range.
  - unfold BytesM.slice, substr.
    cbn [BytesM.buffer BytesM.size BytesM.offset BytesM.of_string].
    rewrite skipn_map, firstn_map.
    now rewrite map_ascii_of_byte_of_ascii.
  - unfold BytesM.capacity.
    cbn [BytesM.buffer BytesM.size BytesM.offset BytesM.of_string].
    rewrite length_map. lia.
Qed.

Lemma view_of_string_is_substr_witness :
  (v <- BytesM.view (BytesM.buffer (BytesM.of_string (lit "hello world"))) 5 6 ;;
   BytesM.toString v) = Ok (substr (lit "hello world") 6 5).
Proof.
  apply view_of_string_is_substr. simpl. lia.
Defined.

(** X16.  Two views that follow each other in one block give, one after
    the other, what the view that spans both gives. *)
Theorem adjacent_views_concatenate
        (buf : list BytesM.Byte) (offset_ n1 n2 : nat) :
  (offset_ + n1 + n2 <= length buf)%nat ->
  (a <- BytesM.toString (BytesM.mkBytes buf n1 offset_) ;;
   b <- BytesM.toString (BytesM.mkBytes buf n2 (offset_ + n1)) ;;
   Ok (a ++ b))
  = BytesM.toString (BytesM.mkBytes buf (n1 + n2) offset_).
Proof.
  intros H.
  rewrite !toString_in_range
    by (unfold BytesM.capacity;
        cbn [BytesM.buffer BytesM.size BytesM.offset]; lia).
  cbn [bind]. unfold BytesM.slice.
  cbn [BytesM.buffer BytesM.size BytesM.offset].
  now rewrite <- map_app, firstn_plus, skipn_plus.
Qed.

Lemma adjacent_views_concatenate_witness :
  (a <- BytesM.toString (BytesM.mkBytes (map byte_of_ascii (lit "hello")) 2 1) ;;
   b <- BytesM.toString (BytesM.mkBytes (map byte_of_ascii (lit "hello")) 2 (1 + 2)) ;;
   Ok (a ++ b))
  = BytesM.toString (BytesM.mkBytes (map byte_of_ascii (lit "hello")) (2 + 2) 1).
Proof.
  apply adjacent_views_concatenate. simpl. lia.
Defined.

(** ** More on the two set variants *)

(** X17.  Right after an [insert], whatever the set held before,
    [lastUpdate()] is defined and returns the element just inserted with
    an empty list. *)
Theorem lastUpdate_after_insert (T : Type) (x : T) :
  (forall s : SimpleSet.t T, lastUpdate (insert x s) = Ok (x, []))
  /\ (forall s : SlidingWindow.t T, lastUpdate (insert x s) = Ok (x, [])).
Proof.
  split; intros s; cbn [lastUpdate insert SimpleSet_ops SlidingWindow_ops].
  - unfold SimpleSet.lastUpdate, SimpleSet.insert. cbn [SimpleSet.l].
    now rewrite back_snoc.
  - unfold SlidingWindow.lastUpdate, SlidingWindow.insert. cbn [SlidingWindow.l].
    now rewrite back_snoc.
Qed.

(** X18.  Each [insert] adds one to [size()] in the arithmetic of
    [uint32_t]: the count goes back to 0 after 2^32 - 1. *)
Theorem size_after_insert (T : Type) (x : T) :
  (forall s : SimpleSet.t T, size (insert x s) = (size s + 1) mod 2 ^ 32)
  /\ (forall s : SlidingWindow.t T, size (insert x s) = (size s + 1) mod 2 ^ 32).
Proof.
  split; intros s; cbn [size insert SimpleSet_ops SlidingWindow_ops].
  - unfold SimpleSet.size, SimpleSet.insert, to_u32. cbn [SimpleSet.l].
    rewrite length_app, Z.add_mod_idemp_l by lia. f_equal. simpl length. lia.
  - unfold SlidingWindow.size, SlidingWindow.insert, to_u32. cbn [SlidingWindow.l].
    rewrite length_app, Z.add_mod_idemp_l by lia. f_equal. simpl length. lia.
Qed.

(** X19.  Inserting never drops or reorders: after the values [xs] are
    inserted in order, each variant holds what it held before followed by
    [xs], and [iter] of [SimpleSet] visits first what it visited before and
    then [xs] in the order of insertion. *)
Theorem inserts_keep_everything (T : Type) (xs : list T) :
  (forall s : SimpleSet.t T,
     SimpleSet.l (inserts xs s) = SimpleSet.l s ++ xs)
  /\ (forall s : SlidingWindow.t T,
        SlidingWindow.range (inserts xs s) = SlidingWindow.range s ++ xs)
  /\ (forall (St : Type) (f : T -> St -> St) (s : SimpleSet.t T) (st : St),
        SimpleSet.iter f (inserts xs s) st
        = fold_left (fun acc x => f x acc) xs (SimpleSet.iter f s st))
  /\ (forall s : SimpleSet.t T,
        SimpleSet.iter (fun x acc => acc ++ [x]) (inserts xs s) []
        = SimpleSet.l s ++ xs).
Proof.
  split; [apply simple_inserts_l|]. split; [apply window_inserts_l|]. split.
  - intros St f s st. unfold SimpleSet.iter.
    now rewrite simple_inserts_l, fold_left_app.
  - intros s. unfold SimpleSet.iter. rewrite simple_inserts_l.
    generalize (SimpleSet.l s ++ xs). intros l.
    enough (G : forall acc : list T,
               fold_left (fun acc x => acc ++ [x]) l acc = acc ++ l)
      by apply (G []).
    induction l as [|a l IH]; intros acc; cbn [fold_left].
    + now rewrite app_nil_r.
    + rewrite IH, <- app_assoc. reflexivity.
Qed.

(** ** Parsing, then formatting *)

(** X20.  A run of digits without a leading zero, or the string "0", whose
    value fits [uint128_t], is written back unchanged when it is parsed by
    [u128_of_string] and the value formatted by [string_of_u128]. *)
Theorem u128_parse_then_format (ds : cstring) :
  digits ds -> leading ds \/ ds = lit "0" -> value ds <= UINT128_MAX ->
  (v <- u128_of_string ds ;; string_of_u128 v) = Ok ds.
Proof.
  intros Hd [Hl | ->] Hv; [|reflexivity].
  assert (Hne : ds <> []) by (destruct ds; [contradiction|discriminate]).
  rewrite u128_of_string_digits by assumption. cbn [bind].
  pose proof (value_leading Hd Hl) as Hpos.
  assert (0 < 10 ^ (len ds - 1))
    by (apply Z.pow_pos_nonneg; [lia|]; destruct ds; [contradiction|];
        unfold len; simpl length; lia).
  destruct (@string_of_u128_decimal (value ds) ltac:(lia)) as (s & E & D).
  rewrite E. f_equal. apply (@decimal_unique (value ds)); auto; [lia|].
  split; auto.
Qed.

Lemma u128_parse_then_format_witness :
  (v <- u128_of_string (lit "340282366920938463463374607431768211455") ;;
   string_of_u128 v) = Ok (lit "340282366920938463463374607431768211455").
Proof.
  apply u128_parse_then_format.
  - repeat constructor.
  - left. reflexivity.
  - vm_compute. discriminate.
Defined.

(** X21.  A run of digits without a leading zero, alone or after a minus
    sign, whose signed value fits [int128_t], is written back unchanged
    when it is parsed by [i128_of_string] and the value formatted by
    [string_of_i128]. *)
Theorem i128_parse_then_format (sg : sign) (ds : cstring) :
  sg <> Plus -> digits ds -> leading ds ->
  INT128_MIN <= signed sg (value ds) <= INT128_MAX ->
  (v <- i128_of_string (sign_chars sg ++ ds) ;; string_of_i128 v)
  = Ok (sign_chars sg ++ ds).
Proof.
  intros Hsg Hd Hl Hv.
  assert (Hne : ds <> []) by (destruct ds; [contradiction|discriminate]).
  pose proof (value_leading Hd Hl) as Hpos.
  assert (0 < 10 ^ (len ds - 1))
    by (apply Z.pow_pos_nonneg; [lia|]; destruct ds; [contradiction|];
        unfold len; simpl length; lia).
  rewrite i128_of_string_signed; auto.
  - cbn [bind].
    destruct (string_of_i128_sdecimal Hv) as (s & E & ds' & Es & D).
    rewrite E. f_equal. subst s.
    assert (Ea : Z.abs (signed sg (value ds)) = value ds)
      by (destruct sg; cbn [signed]; lia).
    rewrite Ea in D. f_equal.
    + unfold sign_of. destruct sg; cbn [signed sign_chars];
        [destruct (Z.ltb_spec (value ds) 0); [lia|reflexivity]
        | contradiction
        | destruct (Z.ltb_spec (- value ds) 0); [reflexivity|lia] ].
    + apply (@decimal_unique (value ds)); auto; [lia|]. split; auto.
  - intros _ Hz. pose proof (top_chunk_leading Hd Hl). lia.
Qed.

Lemma i128_parse_then_format_witness :
  (v <- i128_of_string (lit "-170141183460469231731687303715884105728") ;;
   string_of_i128 v) = Ok (lit "-170141183460469231731687303715884105728").
Proof.
  apply (@i128_parse_then_format Minus
           (lit "170141183460469231731687303715884105728")).
  - discriminate.
  - repeat constructor.
  - reflexivity.
  - vm_compute. split; discriminate.
Defined.
